(** * GPS Alarm WebApp: proximity tracking and notification de-duplication

    A shallow embedding of the tracking core of [new.js] (classes [AppState],
    [Utils], [NotificationSystem], [StorageService], [TrackingService]) and
    of the legacy entry point [script.js], followed by the properties the
    specification states about them.

    Modelling conventions.
    - In the handlers a JavaScript number is a real or [NaN]: rounding,
      overflow, the infinities and the sign of zero are not represented
      there.  The program only divides by the literals [2] and [180], so no
      infinity arises from finite inputs.  What the handlers decide depends
      on the comparisons of a distance with the four boundaries, which this
      idealisation keeps.  Where rounding itself decides the outcome (the
      square roots of [haversine] for points that are nearly antipodal) the
      formula is evaluated a second time in [Binary64], with the binary64
      arithmetic an engine performs.
    - A JavaScript value that may be [null] is a [jsval]; the arithmetic
      operators coerce their operands with [ToNumber], as the language does.
    - A handler is a function from the state to a result, the new state and
      the [trace] of its side effects in program order; the calls of one
      handler run to completion before the next handler starts (the event
      loop is single threaded).
    - The DOM and the notification calls are taken to work.  The local
      storage may fail: [StorageService.saveTripHistory] of new.js catches the
      exception and is modelled with its [catch] branch; script.js has no
      handler, and its storage is taken to work.
    - The pictograph that opens most messages of the source is left out of
      the message strings. *)

From stdpp Require Import base option list gmap strings pretty.
From Stdlib Require Import ZArith Reals Lra Lia.
From Stdlib Require Floats.

Local Open Scope R_scope.

(* ================================================================== *)
(** ** JavaScript numbers and values                                   *)
(* ================================================================== *)

Module JS.

Inductive jsnum : Type :=
  | NaN
  | Fin (r : R).

Inductive jsval : Type :=
  | JSnull
  | JSnum (n : jsnum).

Coercion JSnum : jsnum >-> jsval.

(** [ToNumber(null)] is [+0]; a number is itself. *)
Definition ToNumber (v : jsval) : jsnum :=
  match v with
  | JSnull => Fin 0
  | JSnum n => n
  end.

Definition lift1 (f : R -> R) (x : jsnum) : jsnum :=
  match x with
  | Fin a => Fin (f a)
  | NaN => NaN
  end.

Definition lift2 (f : R -> R -> R) (x y : jsnum) : jsnum :=
  match x, y with
  | Fin a, Fin b => Fin (f a b)
  | _, _ => NaN
  end.

(** The binary operators [+], [-], [*] and [/] on values. *)
Definition add (x y : jsval) : jsnum := lift2 Rplus (ToNumber x) (ToNumber y).
Definition sub (x y : jsval) : jsnum := lift2 Rminus (ToNumber x) (ToNumber y).
Definition mul (x y : jsval) : jsnum := lift2 Rmult (ToNumber x) (ToNumber y).

(** A zero divisor gives an infinity or [NaN] in JavaScript; the model has no
    infinities and the program never divides by zero. *)
Definition div (x y : jsval) : jsnum :=
  match ToNumber x, ToNumber y with
  | Fin a, Fin b => if Req_dec_T b 0 then NaN else Fin (a / b)
  | _, _ => NaN
  end.

(** [x ** 2]. *)
Definition sq (x : jsval) : jsnum := lift1 (fun a => a ^ 2) (ToNumber x).

(** [x < y]: false as soon as one side is [NaN]. *)
Definition lt (x y : jsval) : bool :=
  match ToNumber x, ToNumber y with
  | Fin a, Fin b => if Rlt_dec a b then true else false
  | _, _ => false
  end.

(** [x == y] on numbers: [NaN] is equal to nothing, itself included. *)
Definition eqb (x y : jsnum) : bool :=
  match x, y with
  | Fin a, Fin b => if Req_dec_T a b then true else false
  | _, _ => false
  end.

(** [x >= y] on numbers. *)
Definition ge (x y : jsnum) : bool :=
  match x, y with
  | Fin a, Fin b => if Rle_dec b a then true else false
  | _, _ => false
  end.

Definition Math_PI : jsnum := Fin PI.
Definition Math_sin (x : jsval) : jsnum := lift1 sin (ToNumber x).
Definition Math_cos (x : jsval) : jsnum := lift1 cos (ToNumber x).

Definition Math_sqrt (x : jsval) : jsnum :=
  match ToNumber x with
  | Fin a => if Rlt_dec a 0 then NaN else Fin (sqrt a)
  | NaN => NaN
  end.

(** The angle of the point [(x, y)], in [(-PI, PI]]. *)
Definition atan2 (y x : R) : R :=
  if Rlt_dec 0 x then atan (y / x)
  else if Rlt_dec x 0 then
    if Rle_dec 0 y then atan (y / x) + PI else atan (y / x) - PI
  else if Rlt_dec 0 y then PI / 2
  else if Rlt_dec y 0 then - (PI / 2)
  else 0.

Definition Math_atan2 (y x : jsval) : jsnum :=
  lift2 atan2 (ToNumber y) (ToNumber x).

(** [Math.round]: the nearest integer, a tie going up.  Only applied to a
    difference of two dates divided by a positive integer, so integers
    suffice: [round_div x d] is [Math.round(x / d)] for [d > 0]. *)
Definition round_div (x d : Z) : Z := ((2 * x + d) / (2 * d))%Z.

(** [x.toFixed(2)]: the magnitude is rounded to hundredths, a tie going up,
    and the sign is printed first.  (Magnitudes from [1e21] on print in
    exponent form; distances on Earth stay below [20016] km.) *)
Definition hundredths (r : R) : Z := Int_part (Rabs r * 100 + / 2).

Definition toFixed2 (x : jsnum) : string :=
  match x with
  | NaN => "NaN"
  | Fin r =>
      let n := hundredths r in
      (if Rlt_dec r 0 then "-" else "") +:+ pretty (n / 100)%Z +:+ "." +:+
      pretty (n mod 100 / 10)%Z +:+ pretty (n mod 10)%Z
  end.

(** [parseFloat(x.toFixed(2))]. *)
Definition parseFloat_toFixed2 (x : jsnum) : jsnum :=
  match x with
  | NaN => NaN
  | Fin r => Fin ((if Rlt_dec r 0 then -1 else 1) * IZR (hundredths r) / 100)
  end.

(** Truthiness of a property read from an object whose values are
    booleans: a missing key reads [undefined], which is falsy. *)
Definition truthy (v : option bool) : bool := default false v.

(** [haystack.includes(needle)]. *)
Fixpoint includes (needle haystack : string) : bool :=
  String.prefix needle haystack ||
  match haystack with
  | EmptyString => false
  | String _ rest => includes needle rest
  end.

End JS.

Import JS.

(* ================================================================== *)
(** ** Configuration ([CONFIG] of new.js)                              *)
(* ================================================================== *)

Module CONFIG.

Module durations.
Definition short : Z := 2000.
Definition medium : Z := 4000.
Definition long : Z := 8000.
Definition persistent : Z := 10000.
End durations.

Module distances.
Definition arrived : jsnum := Fin (3 / 10).
Definition close : jsnum := Fin (75 / 100).
Definition near : jsnum := Fin 1.
Definition approaching : jsnum := Fin 2.
End distances.

Module storage.
Definition maxHistory : nat := 50.
Definition maxTrips : nat := 100.
End storage.

End CONFIG.

(* ================================================================== *)
(** ** [Utils.haversine] and [Utils.deg2rad]                           *)
(* ================================================================== *)

Module Utils.

(** The formula over the number model of the handlers: exact on finite
    arguments.  [Binary64.haversine] is the same formula with the rounding
    of the engine. *)
Definition deg2rad (deg : jsval) : jsnum :=
  mul deg (div Math_PI (Fin 180)).

Definition haversine (lat1 lon1 lat2 lon2 : jsval) : jsnum :=
  let R := Fin 6371 in
  let dLat := deg2rad (sub lat2 lat1) in
  let dLon := deg2rad (sub lon2 lon1) in
  let a := add (sq (Math_sin (div dLat (Fin 2))))
               (mul (mul (Math_cos (deg2rad lat1)) (Math_cos (deg2rad lat2)))
                    (sq (Math_sin (div dLon (Fin 2))))) in
  let c := mul (Fin 2) (Math_atan2 (Math_sqrt a) (Math_sqrt (sub (Fin 1) a))) in
  mul R c.

End Utils.

(* ================================================================== *)
(** ** [haversine] in binary64 arithmetic                              *)
(* ================================================================== *)

Module Binary64.

Import PrimFloat.

Local Open Scope float_scope.

(** What the formula takes from the [Math] object of the host.  The
    language fixes [+], [-], [*], [/] and the square root of a negative
    number by IEEE 754; [Math.sin], [Math.cos], [Math.atan2] and [**] are
    implementation-approximated, so they come from the host ([square] is
    [x ** 2]). *)
Record Host : Type := mkHost {
  Math_sin : float -> float;
  Math_cos : float -> float;
  Math_atan2 : float -> float -> float;
  square : float -> float
}.

(** [Math.PI], the double nearest to the number. *)
Definition Math_PI : float := 0x1.921fb54442d18p+1.

Definition deg2rad (deg : float) : float := deg * (Math_PI / 180).

Definition haversine (h : Host) (lat1 lon1 lat2 lon2 : float) : float :=
  let R := 6371 in
  let dLat := deg2rad (lat2 - lat1) in
  let dLon := deg2rad (lon2 - lon1) in
  let a := square h (Math_sin h (dLat / 2)) +
           Math_cos h (deg2rad lat1) * Math_cos h (deg2rad lat2) *
           square h (Math_sin h (dLon / 2)) in
  let c := 2 * Math_atan2 h (sqrt a) (sqrt (1 - a)) in
  R * c.

(** The values a host returns in the scenario of the two nearly antipodal
    points [(8, 0)] and [(-8, 180)]: the doubles nearest to the sine of
    [-0.13962634015954636] and of [1.5707963267948966], to the cosine of
    [0.13962634015954636] and of its opposite, and to the squares of the
    two sines; and [Math.atan2] returns [NaN] for a [NaN] argument, as the
    language requires. *)
Definition rounds_to_nearest_in_scenario (h : Host) : Prop :=
  Math_sin h (deg2rad (-8 - 8) / 2) = -0x1.1d06c968d9e19p-3 /\
  Math_sin h (deg2rad (180 - 0) / 2) = 1 /\
  Math_cos h (deg2rad 8) = 0x1.fb046a930947ap-1 /\
  Math_cos h (deg2rad (-8)) = 0x1.fb046a930947ap-1 /\
  square h (-0x1.1d06c968d9e19p-3) = 0x1.3d581ca184804p-6 /\
  square h 1 = 1 /\
  (forall y, Math_atan2 h y nan = nan).

(** A host given by a table of these values: outside the table the sine and
    the cosine keep their first term, the square is the rounded product and
    [atan2] is only known to propagate [NaN]. *)
Definition table_host : Host :=
  mkHost
    (fun x => if x =? 0x1.921fb54442d18p+0 then 1
              else if x =? -0x1.1df46a2529d39p-3 then -0x1.1d06c968d9e19p-3
              else x)
    (fun x => if abs x =? 0x1.1df46a2529d39p-3 then 0x1.fb046a930947ap-1 else 1)
    (fun y x => if is_nan y || is_nan x then nan else 0)
    (fun x => x * x).

End Binary64.

(* ================================================================== *)
(** ** Application state and observable effects                        *)
(* ================================================================== *)

(** The [type] argument of a notification. *)
Inductive ntype : Type := success | error | warning | info.

(** A record of the trip log.  [StorageService.saveTripHistory] builds the
    first shape (its [date] and [time] fields are locale renderings of
    [timestamp]); [saveTripHistory] of script.js builds the second one under
    the same storage key. *)
Inductive Trip : Type :=
  | mkTrip (id : string) (destination : option string) (distance : jsnum)
           (duration : Z) (timestamp : Z)
  | mkLegacyTrip (destination : option string) (distance : string) (time : Z).

(** What a handler reads from its surroundings: the clock ([new Date()], in
    milliseconds), the identifier [Utils.generateId()] draws, the
    [destination] entry of the session storage, whether the page has an
    [alarmSound] element, and whether the local storage works ([storageOk]:
    the [tripHistory] entry parses to an array and the write is accepted;
    otherwise the [try] block of [StorageService.saveTripHistory] throws no
    later than at the write, and the entry is left as it was). *)
Record Env : Type := mkEnv {
  now : Z;
  freshId : string;
  destination : option string;
  alarmSound : bool;
  storageOk : bool
}.

(** A sample of the Geolocation API ([position.coords]). *)
Record Position : Type := mkPosition {
  latitude : jsnum;
  longitude : jsnum;
  accuracy : jsnum;
  speed : jsval
}.

Inductive event : Type :=
  | InAppNotification (message : string) (type : ntype) (duration : Z)
  | NativeNotification (message : string) (type : ntype)
  | Vibrate (type : ntype)
  | NotificationSound
  | SetNotified (key : string)
  | StoreTripHistory (trips : list Trip)
  | WatchPosition (id : positive)
  | ClearWatch (id : positive)
  | BackupInterval
  | WakeLockRelease
  | ClearNotifications
  | Status (distance : jsnum)
  | Alert (message : string)
  | AlarmPlay.

(** [AppState].  The Leaflet objects are kept by what the tracking code
    stores in them: the marker's position, the way points of the route and
    the [_fitted] flag of the map.  The Geolocation API hands out positive
    watch identifiers, so [if (this.watchId)] tests for [null]. *)
Record AppState : Type := mkAppState {
  map_fitted : bool;
  userMarker : option (jsnum * jsnum);
  routeControl : option ((jsnum * jsnum) * (jsval * jsval));
  destLat : jsval;
  destLng : jsval;
  notified : gmap string bool;
  watchId : option positive;
  isTracking : bool;
  trackingStartTime : option Z
}.

(** The state a handler can touch: [appState], the wake lock held by
    [notificationSystem], and the [tripHistory] entry of the local storage
    ([None] while the entry is absent). *)
Record World : Type := mkWorld {
  appState : AppState;
  wakeLock : bool;
  tripHistory : option (list Trip)
}.

Definition with_map_fitted (b : bool) (s : AppState) : AppState :=
  mkAppState b (userMarker s) (routeControl s) (destLat s) (destLng s)
             (notified s) (watchId s) (isTracking s) (trackingStartTime s).
Definition with_userMarker (m : option (jsnum * jsnum)) (s : AppState) : AppState :=
  mkAppState (map_fitted s) m (routeControl s) (destLat s) (destLng s)
             (notified s) (watchId s) (isTracking s) (trackingStartTime s).
Definition with_routeControl (r : option ((jsnum * jsnum) * (jsval * jsval)))
    (s : AppState) : AppState :=
  mkAppState (map_fitted s) (userMarker s) r (destLat s) (destLng s)
             (notified s) (watchId s) (isTracking s) (trackingStartTime s).
Definition with_dest (lat lng : jsval) (s : AppState) : AppState :=
  mkAppState (map_fitted s) (userMarker s) (routeControl s) lat lng
             (notified s) (watchId s) (isTracking s) (trackingStartTime s).
Definition with_notified (n : gmap string bool) (s : AppState) : AppState :=
  mkAppState (map_fitted s) (userMarker s) (routeControl s) (destLat s) (destLng s)
             n (watchId s) (isTracking s) (trackingStartTime s).
Definition with_watchId (i : option positive) (s : AppState) : AppState :=
  mkAppState (map_fitted s) (userMarker s) (routeControl s) (destLat s) (destLng s)
             (notified s) i (isTracking s) (trackingStartTime s).
Definition with_isTracking (b : bool) (s : AppState) : AppState :=
  mkAppState (map_fitted s) (userMarker s) (routeControl s) (destLat s) (destLng s)
             (notified s) (watchId s) b (trackingStartTime s).
Definition with_trackingStartTime (t : option Z) (s : AppState) : AppState :=
  mkAppState (map_fitted s) (userMarker s) (routeControl s) (destLat s) (destLng s)
             (notified s) (watchId s) (isTracking s) t.

(** [new AppState()]. *)
Definition new_AppState : AppState :=
  mkAppState false None None JSnull JSnull ∅ None false None.

(** ** A state-and-trace monad for the handlers *)

Definition M (S A : Type) : Type := S -> A * S * list event.

Definition ret {S A} (a : A) : M S A := fun w => (a, w, []).

Definition bind {S A B} (m : M S A) (k : A -> M S B) : M S B :=
  fun w =>
    let '(a, w1, t1) := m w in
    let '(b, w2, t2) := k a w1 in
    (b, w2, t1 ++ t2).

Notation "x <- m ;; k" := (bind m (fun x => k))
  (at level 100, m at next level, right associativity).
Notation "m ;; k" := (bind m (fun _ => k))
  (at level 100, right associativity).

Definition get {S} : M S S := fun w => (w, w, []).
Definition emit {S} (e : event) : M S unit := fun w => (tt, w, [e]).
Definition modify {S} (f : S -> S) : M S unit := fun w => (tt, f w, []).
Definition when {S} (b : bool) (m : M S unit) : M S unit :=
  if b then m else ret tt.

(** The state after a handler, and the effects it had, in program order. *)
Definition exec {S A} (m : M S A) (w : S) : S := snd (fst (m w)).
Definition trace {S A} (m : M S A) (w : S) : list event := snd (m w).

Definition modifyApp (f : AppState -> AppState) : M World unit :=
  modify (fun w => mkWorld (f (appState w)) (wakeLock w) (tripHistory w)).

(** [appState.notified[key] = true]. *)
Definition setNotified (key : string) : M World unit :=
  modifyApp (fun s => with_notified (<[key := true]> (notified s)) s) ;;
  emit (SetNotified key).

(* ================================================================== *)
(** ** [NotificationSystem]                                            *)
(* ================================================================== *)

Module NotificationSystem.

Definition showInAppNotification (message : string) (type : ntype)
    (duration : Z) : M World unit :=
  emit (InAppNotification message type duration).

(** Shown only when the permission was granted; the request is recorded. *)
Definition showNativeNotification (message : string) (type : ntype) : M World unit :=
  emit (NativeNotification message type).

Definition vibrate (type : ntype) : M World unit := emit (Vibrate type).

(** Plays the [alarmSound] element, or a synthesised beep without one. *)
Definition playNotificationSound : M World unit := emit NotificationSound.

Definition show (message : string) (type : ntype) (duration : Z)
    (isImportant : bool) : M World unit :=
  showInAppNotification message type duration ;;
  when isImportant
    (showNativeNotification message type ;;
     vibrate type ;;
     when (includes "arrived" message) playNotificationSound).

Definition clear : M World unit := emit ClearNotifications.

Definition releaseWakeLock : M World unit :=
  w <- get ;;
  when (wakeLock w)
    (emit WakeLockRelease ;;
     modify (fun w => mkWorld (appState w) false (tripHistory w))).

End NotificationSystem.

(* ================================================================== *)
(** ** [StorageService.saveTripHistory]                                *)
(* ================================================================== *)

Module StorageService.

(** [`Trip saved: ${destination} (${distance.toFixed(2)} km)`]. *)
Definition savedMessage (destination : option string) (distance : jsnum) : string :=
  "Trip saved: " +:+ default "null" destination +:+
  " (" +:+ toFixed2 distance +:+ " km)".

Definition failedMessage : string := "Failed to save trip history".

(** The [try] block runs through when the storage works; when it throws,
    nothing was written and the [catch] branch shows the failure banner
    (with the default duration of [show], not important). *)
Definition saveTripHistory (env : Env) (destination : option string)
    (distance : jsnum) (duration : Z) : M World unit :=
  if storageOk env then
    w <- get ;;
    let trips := default [] (tripHistory w) in
    let newTrip := mkTrip (freshId env) destination (parseFloat_toFixed2 distance)
                          duration (now env) in
    let trips := newTrip :: trips in                          (* unshift *)
    let trips := if (CONFIG.storage.maxTrips <? length trips)%nat
                 then take CONFIG.storage.maxTrips trips      (* splice *)
                 else trips in
    modify (fun w => mkWorld (appState w) (wakeLock w) (Some trips)) ;;
    emit (StoreTripHistory trips) ;;
    NotificationSystem.show (savedMessage destination distance) success
      CONFIG.durations.medium false
  else                                                        (* catch *)
    NotificationSystem.show failedMessage error CONFIG.durations.medium false.

End StorageService.

(* ================================================================== *)
(** ** [TrackingService]                                               *)
(* ================================================================== *)

Module TrackingService.

(** [id] is the identifier [watchPosition] returns. *)
Definition startPositionTracking (id : positive) : M World unit :=
  modifyApp (with_isTracking true) ;;
  w <- get ;;
  match watchId (appState w) with
  | Some old => emit (ClearWatch old)
  | None => ret tt
  end ;;
  emit (WatchPosition id) ;;
  modifyApp (with_watchId (Some id)) ;;
  emit BackupInterval.

Definition stopTracking : M World unit :=
  modifyApp (with_isTracking false) ;;
  w <- get ;;
  match watchId (appState w) with
  | Some id => emit (ClearWatch id) ;; modifyApp (with_watchId None)
  | None => ret tt
  end ;;
  NotificationSystem.releaseWakeLock.

Definition updateUserMarker (lat lng : jsnum) : M World unit :=
  modifyApp (with_userMarker (Some (lat, lng))).

(** Writes the distance (with the speed and the accuracy) to the status
    element of the page. *)
Definition updateStatus (position : Position) : M World unit :=
  w <- get ;;
  let distance := Utils.haversine (latitude position) (longitude position)
                    (destLat (appState w)) (destLng (appState w)) in
  emit (Status distance).

Definition updateRoute (lat lng : jsnum) : M World unit :=
  modifyApp (fun s => with_routeControl
                        (Some ((lat, lng), (destLat s, destLng s))) s).

(** [`You've arrived at your destination! Trip took ${tripDuration} minutes.`] *)
Definition arrivedMessage (tripDuration : Z) : string :=
  "You've arrived at your destination! Trip took " +:+ pretty tripDuration +:+
  " minutes.".
Definition closeMessage : string := "500 meters remaining to destination".
Definition nearMessage : string := "1 kilometer remaining to destination".
Definition approachingMessage : string := "2 kilometers remaining to destination".

Definition handleArrival (env : Env) (distance : jsnum) : M World unit :=
  w <- get ;;
  let tripDuration :=
    match trackingStartTime (appState w) with
    | Some t0 => round_div (now env - t0) 60000
    | None => 0%Z
    end in
  NotificationSystem.show (arrivedMessage tripDuration) success
    CONFIG.durations.persistent true ;;
  StorageService.saveTripHistory env (destination env) distance tripDuration ;;
  setNotified "arrived" ;;
  stopTracking.

(** The conditional of [checkNotifications], for the distance it computed. *)
Definition checkNotifications_at (env : Env) (distance : jsnum) : M World unit :=
  w <- get ;;
  let unseen key := negb (truthy (notified (appState w) !! key)) in
  if lt distance CONFIG.distances.arrived && unseen "arrived" then
    handleArrival env distance
  else if lt distance CONFIG.distances.close && unseen "500m" then
    NotificationSystem.show closeMessage warning CONFIG.durations.medium true ;;
    setNotified "500m"
  else if lt distance CONFIG.distances.near && unseen "1km" then
    NotificationSystem.show nearMessage info CONFIG.durations.medium true ;;
    setNotified "1km"
  else if lt distance CONFIG.distances.approaching && unseen "2km" then
    NotificationSystem.show approachingMessage info CONFIG.durations.short false ;;
    setNotified "2km"
  else ret tt.

Definition checkNotifications (env : Env) (lat lng : jsval) : M World unit :=
  w <- get ;;
  let distance := Utils.haversine lat lng (destLat (appState w))
                    (destLng (appState w)) in
  checkNotifications_at env distance.

Definition fitMapBounds (lat lng : jsnum) : M World unit :=
  w <- get ;;
  when (negb (map_fitted (appState w))) (modifyApp (with_map_fitted true)).

Definition handlePositionUpdate (env : Env) (position : Position) : M World unit :=
  let lat := latitude position in
  let lng := longitude position in
  updateUserMarker lat lng ;;
  updateStatus position ;;
  updateRoute lat lng ;;
  checkNotifications env lat lng ;;
  fitMapBounds lat lng.

End TrackingService.

(** [AppState.reset]. *)
Definition AppState_reset : M World unit :=
  modifyApp (with_notified ∅) ;;
  modifyApp (with_isTracking false) ;;
  modifyApp (with_trackingStartTime None) ;;
  w <- get ;;
  match watchId (appState w) with
  | Some id => emit (ClearWatch id) ;; modifyApp (with_watchId None)
  | None => ret tt
  end.

(** ** Page life cycle ([TrackPageController], [App]) *)

Module TrackPageController.

(** The branch of [trackDestination] taken when the geocoder answered:
    [lat] and [lon] are what [parseFloat] made of its answer, [id] the
    identifier of the watch that [initMapWithTracking] starts on a new map. *)
Definition trackDestination (env : Env) (lat lon : jsnum) (id : positive)
    : M World unit :=
  modifyApp (with_dest lat lon) ;;
  modifyApp (with_map_fitted false) ;;
  TrackingService.startPositionTracking id ;;
  NotificationSystem.show "Tracking started successfully!" success
    CONFIG.durations.short true ;;
  modifyApp (with_trackingStartTime (Some (now env))).

End TrackPageController.

(** The callbacks the page registers, each run to completion. *)
Inductive handler : Type :=
  | PositionUpdate (env : Env) (position : Position)
  | BecameVisible (id : positive)
  | BeforeUnload
  | StopTracking
  | Reset.

Definition run (h : handler) : M World unit :=
  match h with
  | PositionUpdate env position =>
      TrackingService.handlePositionUpdate env position
  | BecameVisible id =>
      w <- get ;;
      when (isTracking (appState w)) (TrackingService.startPositionTracking id)
  | BeforeUnload =>
      TrackingService.stopTracking ;;
      NotificationSystem.clear ;;
      NotificationSystem.releaseWakeLock
  | StopTracking => TrackingService.stopTracking
  | Reset => AppState_reset
  end.

Fixpoint run_all (hs : list handler) : M World unit :=
  match hs with
  | [] => ret tt
  | h :: hs' => run h ;; run_all hs'
  end.

(** A freshly loaded page: [new AppState()], no wake lock yet, and whatever
    log the local storage holds. *)
Definition page_loaded (stored : option (list Trip)) : World :=
  mkWorld new_AppState false stored.

(** The states of a page, each with the effects that led to it: tracking
    starts once, when the page has loaded and the destination was found;
    afterwards the registered callbacks run.  The wake lock is granted
    asynchronously, at any moment. *)
Inductive reachable : World -> list event -> Prop :=
  | reach_loaded stored :
      reachable (page_loaded stored) []
  | reach_tracking stored env lat lon id :
      reachable (exec (TrackPageController.trackDestination env lat lon id)
                      (page_loaded stored))
                (trace (TrackPageController.trackDestination env lat lon id)
                       (page_loaded stored))
  | reach_wakeLock w tr :
      reachable w tr ->
      reachable (mkWorld (appState w) true (tripHistory w)) tr
  | reach_run w tr h :
      reachable w tr ->
      reachable (exec (run h) w) (tr ++ trace (run h) w).

(* ================================================================== *)
(** ** The legacy entry point (script.js)                              *)
(* ================================================================== *)

Module Legacy.

(** The globals of the script and the [tripHistory] storage entry. *)
Record Globals : Type := mkGlobals {
  destLat : jsval;
  destLng : jsval;
  notified : gmap string bool;
  tripHistory : option (list Trip)
}.

Definition deg2rad (deg : jsval) : jsnum :=
  mul deg (div Math_PI (Fin 180)).

Definition haversine (lat1 lon1 lat2 lon2 : jsval) : jsnum :=
  let R := Fin 6371 in
  let dLat := deg2rad (sub lat2 lat1) in
  let dLon := deg2rad (sub lon2 lon1) in
  let a := add (sq (Math_sin (div dLat (Fin 2))))
               (mul (mul (Math_cos (deg2rad lat1)) (Math_cos (deg2rad lat2)))
                    (sq (Math_sin (div dLon (Fin 2))))) in
  let c := mul (Fin 2) (Math_atan2 (Math_sqrt a) (Math_sqrt (sub (Fin 1) a))) in
  mul R c.

(** [alert(msg)], then the alarm when the page has one and the message
    speaks of arrival. *)
Definition notify (env : Env) (msg : string) : M Globals unit :=
  emit (Alert msg) ;;
  when (alarmSound env && includes "arrived" msg) (emit AlarmPlay).

(** [trips.push(...)]: the record goes to the end, and nothing is cut.  The
    script has no [try] around the storage calls. *)
Definition saveTripHistory (env : Env) (destination : option string)
    (distance : jsnum) : M Globals unit :=
  g <- get ;;
  let trips := default [] (tripHistory g) in
  let trips := trips ++ [mkLegacyTrip destination (toFixed2 distance) (now env)] in
  modify (fun g => mkGlobals (destLat g) (destLng g) (notified g) (Some trips)) ;;
  emit (StoreTripHistory trips).

Definition setNotified (key : string) : M Globals unit :=
  modify (fun g => mkGlobals (destLat g) (destLng g)
                     (<[key := true]> (notified g)) (tripHistory g)) ;;
  emit (SetNotified key).

Definition checkNotifications (env : Env) (distance : jsnum) : M Globals unit :=
  g <- get ;;
  let unseen key := negb (truthy (notified g !! key)) in
  if lt distance (Fin (3 / 10)) && unseen "arrived" then
    notify env "You've arrived!" ;;
    saveTripHistory env (destination env) distance ;;
    setNotified "arrived"
  else if lt distance (Fin (75 / 100)) && unseen "500m" then
    notify env "500m remaining" ;;
    setNotified "500m"
  else if lt distance (Fin 1) && unseen "1km" then
    notify env "1km remaining" ;;
    setNotified "1km"
  else if lt distance (Fin 2) && unseen "2km" then
    notify env "2km remaining" ;;
    setNotified "2km"
  else ret tt.

(** The position callback of [initMapWithTracking], map drawing left out. *)
Definition onPosition (env : Env) (lat lng : jsnum) : M Globals unit :=
  g <- get ;;
  let distance := haversine lat lng (destLat g) (destLng g) in
  emit (Status distance) ;;
  checkNotifications env distance.

End Legacy.

(* ================================================================== *)
(** ** The vocabulary of the specification                             *)
(* ================================================================== *)

Module Spec.

(** The thresholds, with the key under which the program records each. *)
Inductive ThresholdId : Type := arrived | close | near | approaching.

#[global] Instance ThresholdId_eq_dec : EqDecision ThresholdId.
Proof. solve_decision. Defined.

Definition key (t : ThresholdId) : string :=
  match t with
  | arrived => "arrived"
  | close => "500m"
  | near => "1km"
  | approaching => "2km"
  end.

Definition boundary (t : ThresholdId) : jsnum :=
  match t with
  | arrived => CONFIG.distances.arrived
  | close => CONFIG.distances.close
  | near => CONFIG.distances.near
  | approaching => CONFIG.distances.approaching
  end.

(** Strictest first. *)
Definition order : list ThresholdId := [arrived; close; near; approaching].

Definition unseen (seen : gmap string bool) (t : ThresholdId) : bool :=
  negb (truthy (seen !! key t)).

(** [evaluate] in the words of the specification: the first threshold,
    strictest first, whose boundary is [>=] the distance and that is not yet
    notified. *)
Definition evaluate (d : jsnum) (seen : gmap string bool) : option ThresholdId :=
  List.find (fun t => ge (boundary t) d && unseen seen t) order.

(** The same with the strict comparison of the program. *)
Definition evaluate_strict (d : jsnum) (seen : gmap string bool)
    : option ThresholdId :=
  List.find (fun t => lt d (boundary t) && unseen seen t) order.

(** The thresholds the specification calls important. *)
Definition important (t : ThresholdId) : bool :=
  match t with
  | arrived | close => true
  | near | approaching => false
  end.

(** The thresholds the program dispatches with [isImportant]. *)
Definition dispatched_important (t : ThresholdId) : bool :=
  match t with
  | arrived | close | near => true
  | approaching => false
  end.

End Spec.

(** ** Reading a trace *)

(** The threshold an in-app banner (or a legacy alert) announces. *)
Definition alert_of (message : string) : option Spec.ThresholdId :=
  if String.prefix "You've arrived" message then Some Spec.arrived
  else if String.eqb message TrackingService.closeMessage then Some Spec.close
  else if String.eqb message "500m remaining" then Some Spec.close
  else if String.eqb message TrackingService.nearMessage then Some Spec.near
  else if String.eqb message "1km remaining" then Some Spec.near
  else if String.eqb message TrackingService.approachingMessage
  then Some Spec.approaching
  else if String.eqb message "2km remaining" then Some Spec.approaching
  else None.

(** One dispatch per banner or alert of a threshold. *)
Definition dispatch_of (e : event) : option Spec.ThresholdId :=
  match e with
  | InAppNotification message _ _ => alert_of message
  | Alert message => alert_of message
  | _ => None
  end.

Definition dispatches (t : list event) : list Spec.ThresholdId :=
  omap dispatch_of t.

(** An effect on one of the notification channels. *)
Definition is_notification (e : event) : bool :=
  match e with
  | InAppNotification _ _ _ | NativeNotification _ _ | Vibrate _
  | NotificationSound | Alert _ | AlarmPlay => true
  | _ => false
  end.

(** The channels beyond the banner. *)
Definition is_native (e : event) : bool :=
  match e with NativeNotification _ _ => true | _ => false end.
Definition is_haptic (e : event) : bool :=
  match e with Vibrate _ => true | _ => false end.
Definition is_audible (e : event) : bool :=
  match e with NotificationSound | AlarmPlay => true | _ => false end.

(** The keys written to the notified set, in order. *)
Definition marks (t : list event) : list string :=
  omap (fun e => match e with SetNotified k => Some k | _ => None end) t.

(** An effect that ends the tracking activity: a watch is cleared or the
    wake lock released. *)
Definition is_stop (e : event) : bool :=
  match e with
  | ClearWatch _ | WakeLockRelease => true
  | _ => false
  end.


(** The logs written to the storage, in order. *)
Definition stores (t : list event) : list (list Trip) :=
  omap (fun e => match e with StoreTripHistory l => Some l | _ => None end) t.

(** The watches that were subscribed and not cleared since, newest first. *)
Definition watch_step (ws : list positive) (e : event) : list positive :=
  match e with
  | WatchPosition id => id :: ws
  | ClearWatch id => List.filter (fun i => negb (Pos.eqb i id)) ws
  | _ => ws
  end.

Definition active_watches (t : list event) : list positive :=
  fold_left watch_step t [].

(** The number of dispatches of [arrived]. *)
Definition arrivals (t : list event) : nat :=
  length (List.filter (fun k => bool_decide (k = Spec.arrived)) (dispatches t)).

(** ** The quantity under the square roots of [haversine] *)

(** For finite arguments, the value of [a] in [haversine]: the haversine of
    the central angle between the two points. *)
Definition hav (lat1 lon1 lat2 lon2 : R) : R :=
  sin ((lat2 - lat1) * (PI / 180) / 2) ^ 2 +
  cos (lat1 * (PI / 180)) * cos (lat2 * (PI / 180)) *
  sin ((lon2 - lon1) * (PI / 180) / 2) ^ 2.

(** ** What one evaluation is expected to do *)

(** The duration [handleArrival] reports, in minutes. *)
Definition tripDuration (env : Env) (w : World) : Z :=
  match trackingStartTime (appState w) with
  | Some t0 => round_div (now env - t0) 60000
  | None => 0%Z
  end.

(** The record [handleArrival] hands to the storage. *)
Definition arrivalTrip (env : Env) (d : jsnum) (w : World) : Trip :=
  mkTrip (freshId env) (destination env) (parseFloat_toFixed2 d)
         (tripDuration env w) (now env).

(** The channel effects of the alert of each threshold. *)
Definition alert_effects (t : Spec.ThresholdId) (minutes : Z) : list event :=
  match t with
  | Spec.arrived =>
      [InAppNotification (TrackingService.arrivedMessage minutes) success
         CONFIG.durations.persistent;
       NativeNotification (TrackingService.arrivedMessage minutes) success;
       Vibrate success;
       NotificationSound]
  | Spec.close =>
      [InAppNotification TrackingService.closeMessage warning CONFIG.durations.medium;
       NativeNotification TrackingService.closeMessage warning;
       Vibrate warning]
  | Spec.near =>
      [InAppNotification TrackingService.nearMessage info CONFIG.durations.medium;
       NativeNotification TrackingService.nearMessage info;
       Vibrate info]
  | Spec.approaching =>
      [InAppNotification TrackingService.approachingMessage info
         CONFIG.durations.short]
  end.

(** The effects of [stopTracking] in a given state. *)
Definition stop_effects (w : World) : list event :=
  match watchId (appState w) with Some id => [ClearWatch id] | None => [] end ++
  (if wakeLock w then [WakeLockRelease] else []).

(** The state [stopTracking] leaves. *)
Definition stopped (w : World) : World :=
  mkWorld (with_watchId None (with_isTracking false (appState w))) false
          (tripHistory w).

(** The state with one more key in the notified set. *)
Definition marked (k : string) (w : World) : World :=
  mkWorld (with_notified (<[k := true]> (notified (appState w))) (appState w))
          (wakeLock w) (tripHistory w).

(** The state with a new record at the front of the capped trip log. *)
Definition logged (trip : Trip) (w : World) : World :=
  mkWorld (appState w) (wakeLock w)
          (Some (take CONFIG.storage.maxTrips (trip :: default [] (tripHistory w)))).

(** What [StorageService.saveTripHistory] leaves of a record: the log with
    the record when the storage works, the state as it was when it fails. *)
Definition saved (env : Env) (trip : Trip) (w : World) : World :=
  if storageOk env then logged trip w else w.

(** The effects of [StorageService.saveTripHistory]: the write and its
    banner, or the failure banner alone. *)
Definition save_effects (env : Env) (dest : option string) (d : jsnum)
    (trip : Trip) (w : World) : list event :=
  if storageOk env then
    [StoreTripHistory (take CONFIG.storage.maxTrips
                         (trip :: default [] (tripHistory w)));
     InAppNotification (StorageService.savedMessage dest d) success
       CONFIG.durations.medium]
  else
    [InAppNotification StorageService.failedMessage error CONFIG.durations.medium].

(** The same for the legacy script. *)
Definition legacy_message (t : Spec.ThresholdId) : string :=
  match t with
  | Spec.arrived => "You've arrived!"
  | Spec.close => "500m remaining"
  | Spec.near => "1km remaining"
  | Spec.approaching => "2km remaining"
  end.

Definition legacy_log (env : Env) (d : jsnum) (g : Legacy.Globals) : list Trip :=
  default [] (Legacy.tripHistory g) ++
  [mkLegacyTrip (destination env) (toFixed2 d) (now env)].

Definition legacy_logged (env : Env) (d : jsnum) (g : Legacy.Globals)
    : Legacy.Globals :=
  Legacy.mkGlobals (Legacy.destLat g) (Legacy.destLng g) (Legacy.notified g)
                   (Some (legacy_log env d g)).

Definition legacy_marked (t : Spec.ThresholdId) (g : Legacy.Globals)
    : Legacy.Globals :=
  Legacy.mkGlobals (Legacy.destLat g) (Legacy.destLng g)
                   (<[Spec.key t := true]> (Legacy.notified g))
                   (Legacy.tripHistory g).

(** The state once the marker and the route follow a sample. *)
Definition positioned (position : Position) (w : World) : World :=
  let lat := latitude position in
  let lng := longitude position in
  let s := with_userMarker (Some (lat, lng)) (appState w) in
  mkWorld (with_routeControl (Some ((lat, lng), (destLat s, destLng s))) s)
          (wakeLock w) (tripHistory w).

(** The distance [handlePositionUpdate] computes for a sample. *)
Definition distance_of (position : Position) (w : World) : jsnum :=
  Utils.haversine (latitude position) (longitude position)
    (destLat (appState w)) (destLng (appState w)).

(** The keys of the notified set that read as true. *)
Definition is_notified (w : World) (k : string) : bool :=
  truthy (notified (appState w) !! k).

(** The threshold a handler decides in a given state: only a position
    sample evaluates the thresholds. *)
Definition fired_by (h : handler) (w : World) : option Spec.ThresholdId :=
  match h with
  | PositionUpdate env position =>
      Spec.evaluate_strict (distance_of position w) (notified (appState w))
  | _ => None
  end.

(** Whether the local storage works when a handler runs; only a position
    sample can reach it. *)
Definition storage_works (h : handler) : bool :=
  match h with
  | PositionUpdate env _ => storageOk env
  | _ => true
  end.

(** ** Orderings of a trace *)



(** ** Sample inputs *)

Definition sample_env : Env :=
  mkEnv 1800000 "m1abc" (Some "Colombo Fort") true true.


(** The legacy page, loaded with a destination and nothing notified. *)
Definition legacy_loaded : Legacy.Globals :=
  Legacy.mkGlobals (Fin (69271 / 10000)) (Fin (798612 / 10000)) ∅ None.

(** A sample at the destination of the scenarios, and a short session. *)
Definition sample_position : Position :=
  mkPosition (Fin (69271 / 10000)) (Fin (798612 / 10000)) (Fin 10) JSnull.

Definition sample_session : list handler :=
  [PositionUpdate sample_env sample_position;
   PositionUpdate sample_env sample_position;
   BecameVisible 2;
   StopTracking].

(** The page once tracking to the sample destination has started, with one
    earlier trip in the log. *)
Definition tracking_started : World :=
  exec (TrackPageController.trackDestination sample_env
          (Fin (69271 / 10000)) (Fin (798612 / 10000)) 1)
       (page_loaded (Some [mkTrip "m0xyz" (Some "Kandy") (Fin (25 / 100)) 42 1200000])).



(* ================================================================== *)
(** ** More of [Utils]: [formatTimestamp] and [retryOperation]         *)
(* ================================================================== *)

Module Timestamps.

(** Instants are milliseconds; [Math.floor] of a quotient of integers is the
    floor division.  [toLocaleDateString] is the rendering of the host. *)
Definition formatTimestamp (toLocaleDateString : Z -> string)
    (now timestamp : Z) : string :=
  let diffMs := (now - timestamp)%Z in
  let diffMins := (diffMs / 60000)%Z in
  let diffHours := (diffMs / 3600000)%Z in
  let diffDays := (diffMs / 86400000)%Z in
  if (diffMins <? 1)%Z then "Just now"
  else if (diffMins <? 60)%Z then pretty diffMins +:+ "m ago"
  else if (diffHours <? 24)%Z then pretty diffHours +:+ "h ago"
  else if (diffDays <? 7)%Z then pretty diffDays +:+ "d ago"
  else toLocaleDateString timestamp.

End Timestamps.

Module Retry.

(** How a call of [retryOperation] ends: with the value of a successful
    attempt, with the error of the last attempt, or, when the loop body
    never runs, with [undefined]. *)
Inductive outcome (A E : Type) : Type :=
  | Returned (a : A)
  | Threw (e : E)
  | Undefined.
Arguments Returned {A E} a.
Arguments Threw {A E} e.
Arguments Undefined {A E}.

(** The loop of [retryOperation] from its [i]-th round, with [remaining]
    rounds to go; [operation k] is what the [k]-th call of the operation
    does.  The result comes with the pauses taken, in milliseconds. *)
Fixpoint retry_from {A E : Type} (operation : nat -> A + E)
    (maxRetries : nat) (delay : Z) (i remaining : nat)
    : outcome A E * list Z :=
  match remaining with
  | O => (Undefined, [])
  | S r =>
      match operation i with
      | inl a => (Returned a, [])
      | inr e =>
          if Nat.eqb i (maxRetries - 1) then (Threw e, [])
          else
            let '(o, pauses) := retry_from operation maxRetries delay (S i) r in
            (o, (delay * 2 ^ Z.of_nat i)%Z :: pauses)
      end
  end.

Definition retryOperation {A E : Type} (operation : nat -> A + E)
    (maxRetries : nat) (delay : Z) : outcome A E * list Z :=
  retry_from operation maxRetries delay 0 maxRetries.

End Retry.

(* ================================================================== *)
(** ** [ErrorHandler.handleGeolocationError]                           *)
(* ================================================================== *)

Module ErrorHandler.

(** The codes of a [GeolocationPositionError]. *)
Definition PERMISSION_DENIED : Z := 1.
Definition POSITION_UNAVAILABLE : Z := 2.
Definition TIMEOUT : Z := 3.

Definition geolocationMessage (code : Z) : string :=
  if (code =? PERMISSION_DENIED)%Z then
    "Location access denied" +:+ ". " +:+
    "Please enable location permissions in your browser settings"
  else if (code =? POSITION_UNAVAILABLE)%Z then
    "Location unavailable" +:+ ". " +:+
    "Please check your GPS or try moving to an open area"
  else if (code =? TIMEOUT)%Z then
    "Location request timed out" +:+ ". " +:+ "Please try again"
  else
    "Unknown location error" +:+ ". " +:+ "Please try refreshing the page".

Definition handleGeolocationError (code : Z) : M World unit :=
  NotificationSystem.show (geolocationMessage code) error
    CONFIG.durations.long false.

End ErrorHandler.

(* ================================================================== *)
(** ** The search history                                              *)
(* ================================================================== *)

Module SearchHistory.

(** An item of the [searchHistory] storage entry: a bare string, as
    script.js writes it, or an object, whose [id] may be missing. *)
Inductive Item : Type :=
  | ItemString (s : string)
  | ItemObject (query : string) (timestamp : Z) (id : option string).

(** [typeof item === 'string' ? item : item.query]. *)
Definition item_query (item : Item) : string :=
  match item with
  | ItemString s => s
  | ItemObject q _ _ => q
  end.

(** [StorageService.saveSearchHistory]: the new value of the storage
    entry. *)
Definition saveSearchHistory (env : Env) (destination : string)
    (stored : option (list Item)) : list Item :=
  let history := default [] stored in
  let history :=
    List.filter (fun item => negb (String.eqb (item_query item) destination))
                history in
  let newEntry := ItemObject destination (now env) (Some (freshId env)) in
  let history := newEntry :: history in                       (* unshift *)
  if (CONFIG.storage.maxHistory <? length history)%nat
  then take CONFIG.storage.maxHistory history                 (* slice *)
  else history.

(** [history.includes(value)] compares with strict equality, so only a bare
    string can match a string. *)
Definition is_string (value : string) (item : Item) : bool :=
  match item with
  | ItemString s => String.eqb s value
  | ItemObject _ _ _ => false
  end.

(** The click handler of script.js, where [value] is the trimmed text of
    the input: the new value of the storage entry, or [None] when nothing is
    written.  The empty string is falsy, so [if (value)] sends it to the
    branch that only raises the alert; otherwise the entry is written only
    when the value was pushed. *)
Definition legacy_saveSearch (value : string) (stored : option (list Item))
    : option (list Item) :=
  match value with
  | EmptyString => None                                     (* else: alert *)
  | String _ _ =>
      let history := default [] stored in
      if negb (existsb (is_string value) history)
      then Some (history ++ [ItemString value])
      else None
  end.

(** An entry of [SearchHistoryManager.history]. *)
Record Entry : Type := mkEntry {
  query : string;
  timestamp : Z;
  id : string
}.

(** What the page of the manager holds: its two lists, the storage entry,
    what [renderHistory] last put in the list container and what
    [updateStats] last wrote to the three counters. *)
Record Manager : Type := mkManager {
  history : list Entry;
  filteredHistory : list Entry;
  stored : option (list Item);
  rendered : list Entry;
  counters : nat * nat * nat
}.

(** The functions of the host the manager relies on. *)
Record Host : Type := mkHost {
  trim : string -> string;
  toLowerCase : string -> string;
  isToday : Z -> bool;
  generateId : nat -> string
}.

(** [item.id || Utils.generateId()]: a missing or empty id is falsy. *)
Definition usable_id (i : option string) : option string :=
  match i with
  | Some s => if String.eqb s EmptyString then None else Some s
  | None => None
  end.

(** The [map] of [loadHistory]; [k] counts the identifiers drawn so far. *)
Fixpoint loadItems (host : Host) (now : Z) (k : nat) (items : list Item)
    : list Entry :=
  match items with
  | [] => []
  | ItemString s :: rest =>
      mkEntry s now (generateId host k) :: loadItems host now (S k) rest
  | ItemObject q t i :: rest =>
      match usable_id i with
      | Some s => mkEntry q t s :: loadItems host now k rest
      | None => mkEntry q t (generateId host k) :: loadItems host now (S k) rest
      end
  end.

Definition loadHistory (host : Host) (now : Z) (stored : option (list Item))
    : list Entry :=
  loadItems host now 0 (default [] stored).




Definition renderHistory : M Manager unit :=
  modify (fun m => mkManager (history m) (filteredHistory m) (stored m)
                     (filteredHistory m) (counters m)).

(** The three counters: all searches, those of today, and the distinct
    queries up to case. *)
Definition stats (host : Host) (h : list Entry) : nat * nat * nat :=
  (length h,
   length (List.filter (fun e => isToday host (timestamp e)) h),
   size (list_to_set (C := gset string) ((fun e => toLowerCase host (query e)) <$> h))).

Definition updateStats (host : Host) : M Manager unit :=
  modify (fun m => mkManager (history m) (filteredHistory m) (stored m)
                     (rendered m) (stats host (history m))).


(** [notificationSystem.show(message, type)]: the default duration, not
    important. *)
Definition show (message : string) (type : ntype) : M Manager unit :=
  emit (InAppNotification message type CONFIG.durations.medium).

(** [new SearchHistoryManager()]. *)
Definition construct (host : Host) (now : Z) (stored : option (list Item))
    : M Manager unit :=
  fun _ =>
    let h := loadHistory host now stored in
    (renderHistory ;;
     updateStats host ;;
     when (negb (Nat.eqb (length h) 0))
       (show "Search history loaded successfully!" success))
      (mkManager h h stored [] (0, 0, 0)%nat).





Definition filterHistory (host : Host) (q : string) : M Manager unit :=
  modify (fun m =>
    mkManager (history m)
      (List.filter (fun item => includes (toLowerCase host q)
                                  (toLowerCase host (query item)))
                   (history m))
      (stored m) (rendered m) (counters m)) ;;
  renderHistory ;;
  m <- get ;;
  when (negb (String.eqb q EmptyString) && Nat.eqb (length (filteredHistory m)) 0)
    (show "No matches found for your search" warning).

End SearchHistory.

(* ================================================================== *)
(** ** [SlideshowManager]                                              *)
(* ================================================================== *)

Module SlideshowManager.

(** The slides are kept by their [active] class. *)
Record Slideshow : Type := mkSlideshow {
  currentSlide : nat;
  slides : list bool
}.

Definition showSlide (index : nat) (s : Slideshow) : Slideshow :=
  mkSlideshow (currentSlide s) (imap (fun i _ => Nat.eqb i index) (slides s)).

(** With no slide the remainder is [NaN] in the source; [init] never starts
    the timer then, so [nextSlide] only runs on a page with slides. *)
Definition nextSlide (s : Slideshow) : Slideshow :=
  let s := mkSlideshow ((currentSlide s + 1) mod length (slides s)) (slides s) in
  showSlide (currentSlide s) s.

(** [new SlideshowManager()] on the slides of the page; the result tells
    whether the timer was started. *)
Definition init (page : list bool) : Slideshow * bool :=
  let s := mkSlideshow 0 page in
  if Nat.eqb (length page) 0 then (s, false) else (showSlide 0 s, true).

End SlideshowManager.

(** ** Repeated samples *)

(** [n] evaluations in a row at the same distance. *)
Fixpoint samples_at (env : Env) (d : jsnum) (n : nat) : M World unit :=
  match n with
  | O => ret tt
  | S n' => TrackingService.checkNotifications_at env d ;; samples_at env d n'
  end.


(** The thresholds a distance makes eligible, strictest first. *)
Definition eligible (d : jsnum) (seen : gmap string bool) : list Spec.ThresholdId :=
  List.filter (fun t => lt d (Spec.boundary t) && Spec.unseen seen t) Spec.order.

(** The notified set after one evaluation at a distance, and after [n]. *)
Definition seen_next (d : jsnum) (seen : gmap string bool) : gmap string bool :=
  match Spec.evaluate_strict d seen with
  | Some t => <[Spec.key t := true]> seen
  | None => seen
  end.

Fixpoint seen_after (d : jsnum) (seen : gmap string bool) (n : nat)
    : gmap string bool :=
  match n with
  | O => seen
  | S n' => seen_after d (seen_next d seen) n'
  end.

(** The slideshow after [k] ticks of its timer. *)
Definition slideshow_after (page : list bool) (k : nat) : SlideshowManager.Slideshow :=
  Nat.iter k SlideshowManager.nextSlide (fst (SlideshowManager.init page)).

(** A stored search history with both shapes of item, and a manager page. *)
Definition sample_history : option (list SearchHistory.Item) :=
  Some [SearchHistory.ItemString "Kandy";
        SearchHistory.ItemObject "Galle" 1200000 None;
        SearchHistory.ItemObject "Jaffna" 1500000 (Some "m0abc")].

(* ================================================================== *)
(** * Properties                                                       *)
(* ================================================================== *)

(** ** Arithmetic of the number model *)

Section Numbers.

Lemma div_Fin (a b : R) : b <> 0 -> div (Fin a) (Fin b) = Fin (a / b).
Proof.
  intros Hb. unfold div; simpl. destruct (Req_dec_T b 0); [contradiction | reflexivity].
Qed.

Lemma lt_Fin_true (a b : R) : a < b -> lt (Fin a) (Fin b) = true.
Proof. intros H. unfold lt; simpl. destruct (Rlt_dec a b); [reflexivity | contradiction]. Qed.

Lemma lt_Fin_false (a b : R) : b <= a -> lt (Fin a) (Fin b) = false.
Proof. intros H. unfold lt; simpl. destruct (Rlt_dec a b); [lra | reflexivity]. Qed.

Lemma lt_NaN_l (y : jsnum) : lt NaN y = false.
Proof. reflexivity. Qed.

Lemma ge_Fin_true (a b : R) : b <= a -> ge (Fin a) (Fin b) = true.
Proof. intros H. unfold ge. destruct (Rle_dec b a); [reflexivity | contradiction]. Qed.

Lemma sqrt_Fin (a : R) : 0 <= a -> Math_sqrt (Fin a) = Fin (sqrt a).
Proof. intros H. unfold Math_sqrt; simpl. destruct (Rlt_dec a 0); [lra | reflexivity]. Qed.

Lemma deg2rad_Fin (x : R) : Utils.deg2rad (Fin x) = Fin (x * (PI / 180)).
Proof. unfold Utils.deg2rad, Math_PI. rewrite div_Fin by lra. reflexivity. Qed.

Lemma deg2rad_null : Utils.deg2rad JSnull = Fin 0.
Proof.
  unfold Utils.deg2rad, Math_PI. rewrite div_Fin by lra.
  unfold mul; simpl. f_equal. lra.
Qed.

(** [atan2] of a point of the closed first quadrant. *)
Lemma atan2_quadrant (y x : R) : 0 <= y -> 0 <= x -> 0 <= atan2 y x <= PI / 2.
Proof.
  intros Hy Hx. pose proof PI_RGT_0 as Hpi. unfold atan2.
  destruct (Rlt_dec 0 x) as [Hpos | Hn].
  - assert (0 <= y / x) as Hq
      by (unfold Rdiv; apply Rmult_le_pos; [lra | left; apply Rinv_0_lt_compat; lra]).
    pose proof (atan_bound (y / x)) as [_ Hub].
    split; [| lra].
    destruct Hq as [Hq | <-]; [| rewrite atan_0; lra].
    rewrite <- atan_0. left. apply atan_increasing. exact Hq.
  - destruct (Rlt_dec x 0); [lra |].
    destruct (Rlt_dec 0 y); [lra |].
    destruct (Rlt_dec y 0); lra.
Qed.

Lemma atan2_0_1 : atan2 0 1 = 0.
Proof.
  unfold atan2. destruct (Rlt_dec 0 1); [| lra].
  replace (0 / 1) with 0 by lra. apply atan_0.
Qed.

End Numbers.

(** ** The great-circle distance *)

Section Haversine.

Lemma sin_half_sq (x : R) : sin (x / 2) ^ 2 = (1 - cos x) / 2.
Proof.
  replace x with (2 * (x / 2)) at 2 by lra.
  rewrite cos_2a_sin. lra.
Qed.

Lemma sin_sq_bounds (x : R) : 0 <= sin x ^ 2 <= 1.
Proof.
  pose proof (sin2_cos2 x) as H. unfold Rsqr in H.
  pose proof (pow2_ge_0 (sin x)). pose proof (pow2_ge_0 (cos x)). nra.
Qed.

(** The haversine of an angle lies in [[0, 1]], whatever the arguments. *)
Lemma hav_bounds (lat1 lon1 lat2 lon2 : R) : 0 <= hav lat1 lon1 lat2 lon2 <= 1.
Proof.
  unfold hav.
  replace ((lat2 - lat1) * (PI / 180) / 2)
    with ((lat2 * (PI / 180) - lat1 * (PI / 180)) / 2) by lra.
  rewrite sin_half_sq, cos_minus.
  set (u := lat1 * (PI / 180)). set (v := lat2 * (PI / 180)).
  pose proof (sin_sq_bounds ((lon2 - lon1) * (PI / 180) / 2)) as Ht.
  set (t := sin ((lon2 - lon1) * (PI / 180) / 2) ^ 2) in *.
  pose proof (sin2_cos2 u) as Hu. pose proof (sin2_cos2 v) as Hv.
  unfold Rsqr in Hu, Hv.
  set (s1 := sin u) in *. set (c1 := cos u) in *.
  set (s2 := sin v) in *. set (c2 := cos v) in *.
  pose proof (pow2_ge_0 (s1 - s2)). pose proof (pow2_ge_0 (s1 + s2)).
  pose proof (pow2_ge_0 (c1 - c2)). pose proof (pow2_ge_0 (c1 + c2)).
  destruct (Rle_dec 0 (c1 * c2)); split; nra.
Qed.

Lemma hav_sym (lat1 lon1 lat2 lon2 : R) :
  hav lat1 lon1 lat2 lon2 = hav lat2 lon2 lat1 lon1.
Proof.
  unfold hav.
  replace ((lat1 - lat2) * (PI / 180) / 2)
    with (- ((lat2 - lat1) * (PI / 180) / 2)) by lra.
  replace ((lon1 - lon2) * (PI / 180) / 2)
    with (- ((lon2 - lon1) * (PI / 180) / 2)) by lra.
  rewrite !sin_neg. ring.
Qed.

Lemma hav_same (lat lon : R) : hav lat lon lat lon = 0.
Proof.
  unfold hav.
  replace ((lat - lat) * (PI / 180) / 2) with 0 by lra.
  replace ((lon - lon) * (PI / 180) / 2) with 0 by lra.
  rewrite sin_0. ring.
Qed.

(** On finite arguments [haversine] is the closed formula over [hav]. *)
Lemma haversine_Fin (lat1 lon1 lat2 lon2 : R) :
  Utils.haversine (Fin lat1) (Fin lon1) (Fin lat2) (Fin lon2) =
  Fin (6371 * (2 * atan2 (sqrt (hav lat1 lon1 lat2 lon2))
                         (sqrt (1 - hav lat1 lon1 lat2 lon2)))).
Proof.
  pose proof (hav_bounds lat1 lon1 lat2 lon2) as [H0 H1].
  unfold Utils.haversine.
  change (sub (Fin lat2) (Fin lat1)) with (Fin (lat2 - lat1)).
  change (sub (Fin lon2) (Fin lon1)) with (Fin (lon2 - lon1)).
  rewrite !deg2rad_Fin.
  rewrite !div_Fin by lra.
  change (add (sq (Math_sin (Fin ((lat2 - lat1) * (PI / 180) / 2))))
              (mul (mul (Math_cos (Fin (lat1 * (PI / 180))))
                        (Math_cos (Fin (lat2 * (PI / 180)))))
                   (sq (Math_sin (Fin ((lon2 - lon1) * (PI / 180) / 2))))))
    with (Fin (hav lat1 lon1 lat2 lon2)).
  change (sub (Fin 1) (Fin (hav lat1 lon1 lat2 lon2)))
    with (Fin (1 - hav lat1 lon1 lat2 lon2)).
  rewrite !sqrt_Fin by lra.
  reflexivity.
Qed.

(** [null] coordinates are read as [0]. *)
Lemma haversine_null_dest (lat lng : jsval) :
  Utils.haversine lat lng JSnull JSnull = Utils.haversine lat lng (Fin 0) (Fin 0).
Proof. reflexivity. Qed.

Lemma haversine_same (lat lon : R) :
  Utils.haversine (Fin lat) (Fin lon) (Fin lat) (Fin lon) = Fin 0.
Proof.
  rewrite haversine_Fin, hav_same.
  replace (1 - 0) with 1 by lra. rewrite sqrt_0, sqrt_1, atan2_0_1.
  f_equal. lra.
Qed.

Local Ltac nan_cases :=
  cbn; try reflexivity;
  unfold Utils.deg2rad, Math_PI; rewrite ?div_Fin by lra; cbn;
  repeat (destruct (Req_dec_T _ _); cbn; try reflexivity);
  repeat (destruct (Rlt_dec _ _); cbn; try reflexivity).

(** A [NaN] coordinate, of the position or of the destination, makes the
    distance [NaN]. *)
Lemma haversine_NaN_coordinate (lat1 lon1 lat2 lon2 : jsval) :
  lat1 = NaN \/ lon1 = NaN \/ lat2 = NaN \/ lon2 = NaN ->
  Utils.haversine lat1 lon1 lat2 lon2 = NaN.
Proof.
  unfold Utils.haversine. intros [-> | [-> | [-> | ->]]].
  - destruct lon1 as [| [| x]], lat2 as [| [| y]], lon2 as [| [| z]]; nan_cases.
  - destruct lat1 as [| [| x]], lat2 as [| [| y]], lon2 as [| [| z]]; nan_cases.
  - destruct lat1 as [| [| x]], lon1 as [| [| y]], lon2 as [| [| z]]; nan_cases.
  - destruct lat1 as [| [| x]], lon1 as [| [| y]], lat2 as [| [| z]]; nan_cases.
Qed.

End Haversine.

Section HaversineClaims.

Lemma Legacy_haversine_eq (lat1 lon1 lat2 lon2 : jsval) :
  Legacy.haversine lat1 lon1 lat2 lon2 = Utils.haversine lat1 lon1 lat2 lon2.
Proof. reflexivity. Qed.

(** The distance of finite points is a finite number in [[0, 6371 * PI]]. *)
Lemma haversine_range (lat1 lon1 lat2 lon2 : R) :
  exists d, Utils.haversine (Fin lat1) (Fin lon1) (Fin lat2) (Fin lon2) = Fin d /\
            0 <= d <= 6371 * PI.
Proof.
  rewrite haversine_Fin. eexists; split; [reflexivity |].
  pose proof (hav_bounds lat1 lon1 lat2 lon2) as [H0 H1].
  pose proof (atan2_quadrant (sqrt (hav lat1 lon1 lat2 lon2))
                (sqrt (1 - hav lat1 lon1 lat2 lon2))
                (sqrt_pos _) (sqrt_pos _)) as [Ha Hb].
  lra.
Qed.

(** Without rounding the formula is sound: over the reals the quantity under
    the square roots stays in [[0, 1]], so the distance of finite points is
    symmetric, zero between a point and itself and never negative.  What
    [Binary64.haversine] returns near antipodal points is therefore an
    effect of rounding alone. *)
Lemma haversine_exact_symmetric_zero_nonneg (lat1 lon1 lat2 lon2 : R) :
  let d12 := Utils.haversine (Fin lat1) (Fin lon1) (Fin lat2) (Fin lon2) in
  let d21 := Utils.haversine (Fin lat2) (Fin lon2) (Fin lat1) (Fin lon1) in
  d12 = d21 /\
  Utils.haversine (Fin lat1) (Fin lon1) (Fin lat1) (Fin lon1) = Fin 0 /\
  (exists d, d12 = Fin d /\ 0 <= d).
Proof.
  cbv zeta.
  destruct (haversine_range lat1 lon1 lat2 lon2) as (d & Hd & Hd0 & _).
  split; [| split].
  - rewrite !haversine_Fin, (hav_sym lat1 lon1 lat2 lon2). reflexivity.
  - apply haversine_same.
  - exists d. split; [exact Hd | exact Hd0].
Qed.

(** C10, as stated, fails at the point [(0, 0)] itself: with a [null]
    destination the distance returned there is [0], which is not positive. *)
Lemma haversine_null_destination_not_positive :
  Utils.haversine (Fin 0) (Fin 0) JSnull JSnull = Fin 0 /\
  ~ (exists d, Utils.haversine (Fin 0) (Fin 0) JSnull JSnull = Fin d /\ 0 < d).
Proof.
  assert (Utils.haversine (Fin 0) (Fin 0) JSnull JSnull = Fin 0) as H
    by (rewrite haversine_null_dest; apply haversine_same).
  split; [exact H |].
  intros (d & Hd & Hpos). rewrite H in Hd. injection Hd as <-. lra.
Qed.

(** C10 (amended). [haversine] is total, and a [null] argument is read as
    the number 0: the function depends on its arguments through [ToNumber]
    alone, so with a [null] destination [haversine(lat, lng, null, null)]
    returns what [haversine(lat, lng, 0, 0)] returns, a finite number that
    is not negative, never [NaN]; at the position [(0, 0)] it returns 0; and
    [checkNotifications] with an unset destination runs its conditional on
    that number.  The legacy [haversine] is the same function. *)
Theorem haversine_null_destination (lat lng : R) :
  Utils.haversine (Fin lat) (Fin lng) JSnull JSnull =
    Utils.haversine (Fin lat) (Fin lng) (Fin 0) (Fin 0) /\
  (forall a b c d : jsval,
     Utils.haversine a b c d =
     Utils.haversine (ToNumber a) (ToNumber b) (ToNumber c) (ToNumber d)) /\
  (exists d,
     Utils.haversine (Fin lat) (Fin lng) JSnull JSnull = Fin d /\
     0 <= d /\
     forall env w,
       destLat (appState w) = JSnull -> destLng (appState w) = JSnull ->
       TrackingService.checkNotifications env (Fin lat) (Fin lng) w =
       TrackingService.checkNotifications_at env (Fin d) w) /\
  Utils.haversine (Fin 0) (Fin 0) JSnull JSnull = Fin 0 /\
  Legacy.haversine (Fin lat) (Fin lng) JSnull JSnull =
    Utils.haversine (Fin lat) (Fin lng) JSnull JSnull.
Proof.
  split; [apply haversine_null_dest |].
  split; [intros [| a] [| b] [| c] [| d]; reflexivity |].
  split; [| split; [rewrite haversine_null_dest; apply haversine_same | reflexivity]].
  destruct (haversine_range lat lng 0 0) as (d & Hd & Hd0 & _).
  exists d. rewrite haversine_null_dest. split; [exact Hd |]. split; [exact Hd0 |].
  intros env w Hlat Hlng.
  unfold TrackingService.checkNotifications, bind, get.
  rewrite Hlat, Hlng, haversine_null_dest, Hd.
  destruct (TrackingService.checkNotifications_at env _ w) as [[[] w'] t].
  rewrite app_nil_l. reflexivity.
Qed.

End HaversineClaims.

(** ** The distance with the rounding of the engine *)

Section Rounding.

Import PrimFloat.

Local Open Scope float_scope.

(** [NaN] is equal to nothing. *)
Lemma eqb_nan_l (x : float) : (nan =? x) = false.
Proof. rewrite FloatAxioms.eqb_spec. reflexivity. Qed.

(** C8. In binary64 arithmetic the distance of the two coordinates [(8, 0)]
    and [(-8, 180)] is [NaN]: the rounded sum under the square roots is
    [1.0000000000000002], the source does not clamp it, and the square root
    of [1 - a] is taken of a negative number.  The value returned is
    therefore not non-negative ([0 <= d] is false) and equal to nothing
    ([d == x] is false for every [x], the distance of the swapped arguments
    included).  This holds on every host whose [Math.sin], [Math.cos] and
    [**] return the nearest doubles at the arguments of the scenario. *)
Theorem haversine_antipodal_NaN (h : Binary64.Host)
    (Hh : Binary64.rounds_to_nearest_in_scenario h) :
  let d := Binary64.haversine h 8 0 (-8) 180 in
  is_nan d = true /\
  (0 <=? d) = false /\
  (forall x, (d =? x) = false) /\
  (forall x, (x =? d) = false).
Proof.
  destruct Hh as (H1 & H2 & H3 & H4 & H5 & H6 & H7).
  assert (Binary64.haversine h 8 0 (-8) 180 = nan) as Hd.
  { unfold Binary64.haversine. cbv zeta. rewrite H1, H2, H3, H4, H5, H6.
    match goal with
    | |- context [Binary64.Math_atan2 h ?y ?x] =>
        replace x with nan by reflexivity
    end.
    rewrite H7. reflexivity. }
  cbv zeta. rewrite Hd.
  split; [reflexivity |]. split; [reflexivity |]. split; [apply eqb_nan_l |].
  intros x. rewrite FloatAxioms.eqb_spec.
  change (FloatOps.Prim2SF nan) with SpecFloat.S754_nan.
  unfold SpecFloat.SFeqb, SpecFloat.SFcompare.
  destruct (FloatOps.Prim2SF x) as [[] | [] | | [] ? ?]; reflexivity.
Qed.

Lemma haversine_antipodal_NaN_witness :
  Binary64.rounds_to_nearest_in_scenario Binary64.table_host /\
  is_nan (Binary64.haversine Binary64.table_host 8 0 (-8) 180) = true.
Proof.
  assert (Binary64.rounds_to_nearest_in_scenario Binary64.table_host) as Hh.
  { repeat split. intros y. cbn [Binary64.table_host Binary64.Math_atan2].
    destruct (is_nan y); reflexivity. }
  split; [exact Hh |].
  exact (proj1 (haversine_antipodal_NaN Binary64.table_host Hh)).
Defined.

End Rounding.

(** ** One evaluation of the thresholds *)

Section Evaluate.

Lemma take_cap (trips : list Trip) :
  (if (CONFIG.storage.maxTrips <? length trips)%nat
   then take CONFIG.storage.maxTrips trips else trips) =
  take CONFIG.storage.maxTrips trips.
Proof.
  destruct (Nat.ltb_spec CONFIG.storage.maxTrips (length trips)) as [H | H].
  - reflexivity.
  - symmetry. apply take_ge. exact H.
Qed.

Lemma stopTracking_run (w : World) :
  TrackingService.stopTracking w = (tt, stopped w, stop_effects w).
Proof.
  destruct w as [[f um rc dl dg n wid tr st] wl th].
  unfold TrackingService.stopTracking, NotificationSystem.releaseWakeLock,
    stopped, stop_effects, bind, get, modifyApp, modify, emit, when, ret.
  destruct wid, wl; reflexivity.
Qed.

Lemma saveTripHistory_run (env : Env) (dest : option string) (d : jsnum)
    (minutes : Z) (w : World) :
  StorageService.saveTripHistory env dest d minutes w =
  let trip := mkTrip (freshId env) dest (parseFloat_toFixed2 d) minutes (now env) in
  (tt, saved env trip w, save_effects env dest d trip w).
Proof.
  unfold StorageService.saveTripHistory, saved, save_effects.
  destruct (storageOk env); [| reflexivity].
  unfold NotificationSystem.show, NotificationSystem.showInAppNotification, logged,
    bind, get, modify, emit, when, ret.
  cbv zeta. rewrite take_cap. reflexivity.
Qed.

Lemma includes_arrivedMessage (minutes : Z) :
  includes "arrived" (TrackingService.arrivedMessage minutes) = true.
Proof. reflexivity. Qed.

Lemma show_arrived_run (minutes : Z) (w : World) :
  NotificationSystem.show (TrackingService.arrivedMessage minutes) success
    CONFIG.durations.persistent true w =
  (tt, w, alert_effects Spec.arrived minutes).
Proof.
  unfold NotificationSystem.show. rewrite includes_arrivedMessage. reflexivity.
Qed.

Lemma handleArrival_run (env : Env) (d : jsnum) (w : World) :
  TrackingService.handleArrival env d w =
  (tt,
   stopped (marked "arrived" (saved env (arrivalTrip env d w) w)),
   alert_effects Spec.arrived (tripDuration env w) ++
   save_effects env (destination env) d (arrivalTrip env d w) w ++
   SetNotified "arrived" :: stop_effects w).
Proof.
  unfold TrackingService.handleArrival.
  unfold bind at 1. unfold get at 1. fold (tripDuration env w).
  unfold bind at 1. rewrite show_arrived_run.
  unfold bind at 1. rewrite saveTripHistory_run. cbv zeta.
  unfold bind at 1. unfold setNotified, modifyApp, modify, emit, bind.
  rewrite stopTracking_run.
  unfold saved, save_effects. destruct (storageOk env); reflexivity.
Qed.

Lemma save_effects_quiet (env : Env) (dest : option string) (d : jsnum)
    (trip : Trip) (w : World) :
  dispatches (save_effects env dest d trip w) = [] /\
  marks (save_effects env dest d trip w) = [] /\
  forallb (fun e => negb (is_stop e)) (save_effects env dest d trip w) = true /\
  existsb is_native (save_effects env dest d trip w) = false /\
  existsb is_haptic (save_effects env dest d trip w) = false /\
  existsb is_audible (save_effects env dest d trip w) = false.
Proof. unfold save_effects. destruct (storageOk env); repeat split. Qed.

Lemma stores_save_effects (env : Env) (dest : option string) (d : jsnum)
    (trip : Trip) (w : World) :
  stores (save_effects env dest d trip w) =
  if storageOk env
  then [take CONFIG.storage.maxTrips (trip :: default [] (tripHistory w))]
  else [].
Proof. unfold save_effects. destruct (storageOk env); reflexivity. Qed.

(** The conditional of [checkNotifications] takes the branch of the first
    threshold, strictest first, that the distance is below and that is not
    yet in the notified set. *)
Lemma checkNotifications_at_run (env : Env) (d : jsnum) (w : World) :
  TrackingService.checkNotifications_at env d w =
  match Spec.evaluate_strict d (notified (appState w)) with
  | None => (tt, w, [])
  | Some Spec.arrived => TrackingService.handleArrival env d w
  | Some t => (tt, marked (Spec.key t) w,
               alert_effects t 0 ++ [SetNotified (Spec.key t)])
  end.
Proof.
  unfold TrackingService.checkNotifications_at, Spec.evaluate_strict,
    Spec.order, Spec.unseen.
  unfold bind at 1. unfold get at 1.
  cbn [List.find Spec.boundary Spec.key].
  destruct (lt d CONFIG.distances.arrived &&
            negb (truthy (notified (appState w) !! "arrived"))).
  { destruct (TrackingService.handleArrival env d w) as [[[] w'] t].
    reflexivity. }
  destruct (lt d CONFIG.distances.close &&
            negb (truthy (notified (appState w) !! "500m"))); [reflexivity |].
  destruct (lt d CONFIG.distances.near &&
            negb (truthy (notified (appState w) !! "1km"))); [reflexivity |].
  destruct (lt d CONFIG.distances.approaching &&
            negb (truthy (notified (appState w) !! "2km"))); reflexivity.
Qed.

Lemma checkNotifications_run (env : Env) (lat lng : jsval) (w : World) :
  TrackingService.checkNotifications env lat lng w =
  TrackingService.checkNotifications_at env
    (Utils.haversine lat lng (destLat (appState w)) (destLng (appState w))) w.
Proof.
  unfold TrackingService.checkNotifications, bind, get.
  destruct (TrackingService.checkNotifications_at env _ w) as [[[] w'] t].
  reflexivity.
Qed.

Lemma dispatches_app (t1 t2 : list event) :
  dispatches (t1 ++ t2) = dispatches t1 ++ dispatches t2.
Proof. apply omap_app. Qed.

Lemma marks_app (t1 t2 : list event) : marks (t1 ++ t2) = marks t1 ++ marks t2.
Proof. apply omap_app. Qed.

Lemma stores_app (t1 t2 : list event) : stores (t1 ++ t2) = stores t1 ++ stores t2.
Proof. apply omap_app. Qed.

Lemma stop_effects_quiet (w : World) :
  dispatches (stop_effects w) = [] /\ marks (stop_effects w) = [] /\
  stores (stop_effects w) = [] /\
  forallb (fun e => negb (is_notification e)) (stop_effects w) = true.
Proof. unfold stop_effects. destruct (watchId (appState w)), (wakeLock w); repeat split. Qed.

Lemma dispatches_alert (t : Spec.ThresholdId) (minutes : Z) :
  dispatches (alert_effects t minutes) = [t].
Proof. destruct t; reflexivity. Qed.

Lemma marks_alert (t : Spec.ThresholdId) (minutes : Z) :
  marks (alert_effects t minutes) = [].
Proof. destruct t; reflexivity. Qed.

Lemma stores_alert (t : Spec.ThresholdId) (minutes : Z) :
  stores (alert_effects t minutes) = [].
Proof. destruct t; reflexivity. Qed.

Lemma alert_of_savedMessage (dest : option string) (d : jsnum) :
  alert_of (StorageService.savedMessage dest d) = None.
Proof. reflexivity. Qed.

(** What one evaluation dispatches and records, by the threshold it takes. *)
Lemma checkNotifications_at_trace (env : Env) (d : jsnum) (w : World) :
  let decided := Spec.evaluate_strict d (notified (appState w)) in
  dispatches (trace (TrackingService.checkNotifications_at env d) w) =
    option_list decided /\
  marks (trace (TrackingService.checkNotifications_at env d) w) =
    Spec.key <$> option_list decided /\
  notified (appState (exec (TrackingService.checkNotifications_at env d) w)) =
    match decided with
    | Some t => <[Spec.key t := true]> (notified (appState w))
    | None => notified (appState w)
    end.
Proof.
  cbv zeta. unfold trace, exec. rewrite checkNotifications_at_run.
  destruct (Spec.evaluate_strict d (notified (appState w))) as [[] |];
    try (repeat split; reflexivity).
  rewrite handleArrival_run. cbn [fst snd].
  destruct (stop_effects_quiet w) as (Hd & Hm & _).
  destruct (save_effects_quiet env (destination env) d (arrivalTrip env d w) w)
    as (Hsd & Hsm & _).
  change (SetNotified "arrived" :: stop_effects w)
    with ([SetNotified "arrived"] ++ stop_effects w).
  rewrite !dispatches_app, !marks_app, Hd, Hm, Hsd, Hsm, dispatches_alert, marks_alert.
  repeat split.
  cbn [fst snd stopped marked appState notified with_watchId with_isTracking
       with_notified].
  unfold saved. destruct (storageOk env); reflexivity.
Qed.

Local Ltac legacy_branch env g :=
  let Ha := fresh "Ha" in
  destruct g; destruct (alarmSound env) eqn:Ha;
  unfold Legacy.notify, bind; rewrite Ha; reflexivity.

Lemma legacy_checkNotifications_run (env : Env) (d : jsnum) (g : Legacy.Globals) :
  Legacy.checkNotifications env d g =
  match Spec.evaluate_strict d (Legacy.notified g) with
  | None => (tt, g, [])
  | Some t =>
      (tt,
       legacy_marked t (match t with
                        | Spec.arrived => legacy_logged env d g
                        | _ => g
                        end),
       Alert (legacy_message t) ::
       match t with
       | Spec.arrived =>
           (if alarmSound env then [AlarmPlay] else []) ++
           [StoreTripHistory (legacy_log env d g)]
       | _ => []
       end ++ [SetNotified (Spec.key t)])
  end.
Proof.
  unfold Legacy.checkNotifications, Spec.evaluate_strict, Spec.order, Spec.unseen.
  unfold bind at 1. unfold get at 1.
  cbn [List.find Spec.boundary Spec.key].
  change CONFIG.distances.arrived with (Fin (3 / 10)).
  change CONFIG.distances.close with (Fin (75 / 100)).
  change CONFIG.distances.near with (Fin 1).
  change CONFIG.distances.approaching with (Fin 2).
  destruct (lt d (Fin (3 / 10)) && negb (truthy (Legacy.notified g !! "arrived"))).
  { legacy_branch env g. }
  destruct (lt d (Fin (75 / 100)) && negb (truthy (Legacy.notified g !! "500m"))).
  { legacy_branch env g. }
  destruct (lt d (Fin 1) && negb (truthy (Legacy.notified g !! "1km"))).
  { legacy_branch env g. }
  destruct (lt d (Fin 2) && negb (truthy (Legacy.notified g !! "2km"))).
  { legacy_branch env g. }
  reflexivity.
Qed.

Lemma legacy_checkNotifications_trace (env : Env) (d : jsnum) (g : Legacy.Globals) :
  let decided := Spec.evaluate_strict d (Legacy.notified g) in
  dispatches (trace (Legacy.checkNotifications env d) g) = option_list decided /\
  marks (trace (Legacy.checkNotifications env d) g) = Spec.key <$> option_list decided /\
  Legacy.notified (exec (Legacy.checkNotifications env d) g) =
    match decided with
    | Some t => <[Spec.key t := true]> (Legacy.notified g)
    | None => Legacy.notified g
    end.
Proof.
  cbv zeta. unfold trace, exec. rewrite legacy_checkNotifications_run.
  destruct (Spec.evaluate_strict d (Legacy.notified g)) as [[] |];
    try (repeat split; reflexivity).
  destruct (alarmSound env); repeat split.
Qed.

(** [evaluate_strict] returns an eligible threshold, and the one with the
    smallest boundary among the eligible ones; it returns nothing only when
    none is eligible. *)
Lemma evaluate_strict_least (d : jsnum) (seen : gmap string bool) :
  match Spec.evaluate_strict d seen with
  | Some t =>
      lt d (Spec.boundary t) = true /\ Spec.unseen seen t = true /\
      forall t', lt d (Spec.boundary t') = true -> Spec.unseen seen t' = true ->
                 ge (Spec.boundary t') (Spec.boundary t) = true
  | None =>
      forall t', lt d (Spec.boundary t') && Spec.unseen seen t' = false
  end.
Proof.
  unfold Spec.evaluate_strict, Spec.order. cbn [List.find].
  destruct (lt d (Spec.boundary Spec.arrived) && Spec.unseen seen Spec.arrived) eqn:Ha.
  { apply andb_true_iff in Ha as [H1 H2]. repeat split; try assumption.
    intros [] _ _; apply ge_Fin_true; lra. }
  destruct (lt d (Spec.boundary Spec.close) && Spec.unseen seen Spec.close) eqn:Hc.
  { apply andb_true_iff in Hc as [H1 H2]. repeat split; try assumption.
    intros [] Hl Hu; try (apply ge_Fin_true; lra).
    rewrite Hl, Hu in Ha. discriminate. }
  destruct (lt d (Spec.boundary Spec.near) && Spec.unseen seen Spec.near) eqn:Hn.
  { apply andb_true_iff in Hn as [H1 H2]. repeat split; try assumption.
    intros [] Hl Hu; try (apply ge_Fin_true; lra).
    - rewrite Hl, Hu in Ha. discriminate.
    - rewrite Hl, Hu in Hc. discriminate. }
  destruct (lt d (Spec.boundary Spec.approaching) &&
            Spec.unseen seen Spec.approaching) eqn:Hp.
  { apply andb_true_iff in Hp as [H1 H2]. repeat split; try assumption.
    intros [] Hl Hu; try (apply ge_Fin_true; lra).
    - rewrite Hl, Hu in Ha. discriminate.
    - rewrite Hl, Hu in Hc. discriminate.
    - rewrite Hl, Hu in Hn. discriminate. }
  intros []; assumption.
Qed.

Lemma unseen_empty (t : Spec.ThresholdId) : Spec.unseen ∅ t = true.
Proof. unfold Spec.unseen. rewrite lookup_empty. reflexivity. Qed.

Lemma evaluate_strict_fresh_at (a : R) :
  Spec.evaluate_strict (Fin a) ∅ =
  if Rlt_dec a (3 / 10) then Some Spec.arrived
  else if Rlt_dec a (75 / 100) then Some Spec.close
  else if Rlt_dec a 1 then Some Spec.near
  else if Rlt_dec a 2 then Some Spec.approaching
  else None.
Proof.
  unfold Spec.evaluate_strict, Spec.order. cbn [List.find].
  rewrite !unseen_empty, !andb_true_r.
  unfold lt, Spec.boundary, CONFIG.distances.arrived, CONFIG.distances.close,
    CONFIG.distances.near, CONFIG.distances.approaching; cbn [ToNumber].
  destruct (Rlt_dec a (3 / 10)); [reflexivity |].
  destruct (Rlt_dec a (75 / 100)); [reflexivity |].
  destruct (Rlt_dec a 1); [reflexivity |].
  destruct (Rlt_dec a 2); reflexivity.
Qed.

(** C1, as stated, fails on the boundary: at exactly 0.3 km, with nothing
    notified yet, the specification's [evaluate] answers [arrived], while the
    program (both entry points) compares strictly and dispatches [close]. *)
Lemma evaluate_boundary_counterexample :
  Spec.evaluate (Fin (3 / 10)) ∅ = Some Spec.arrived /\
  dispatches (trace (TrackingService.checkNotifications_at sample_env (Fin (3 / 10)))
                    (page_loaded None)) = [Spec.close] /\
  dispatches (trace (Legacy.checkNotifications sample_env (Fin (3 / 10)))
                    legacy_loaded) = [Spec.close].
Proof.
  assert (Spec.evaluate_strict (Fin (3 / 10)) ∅ = Some Spec.close) as Hs.
  { rewrite evaluate_strict_fresh_at.
    destruct (Rlt_dec (3 / 10) (3 / 10)); [lra |].
    destruct (Rlt_dec (3 / 10) (75 / 100)); [reflexivity | lra]. }
  split; [| split].
  - unfold Spec.evaluate, Spec.order. cbn [List.find].
    rewrite unseen_empty. unfold Spec.boundary, CONFIG.distances.arrived.
    rewrite ge_Fin_true by lra. reflexivity.
  - destruct (checkNotifications_at_trace sample_env (Fin (3 / 10)) (page_loaded None))
      as (Hd & _).
    rewrite Hd. change (notified (appState (page_loaded None))) with (∅ : gmap string bool).
    rewrite Hs. reflexivity.
  - destruct (legacy_checkNotifications_trace sample_env (Fin (3 / 10)) legacy_loaded)
      as (Hd & _).
    rewrite Hd. change (Legacy.notified legacy_loaded) with (∅ : gmap string bool).
    rewrite Hs. reflexivity.
Qed.

(** C1 (amended). For every position and every state of the notified set,
    [checkNotifications] dispatches at most one threshold: the strictest
    (smallest-boundary) threshold whose boundary is strictly greater than the
    distance and that is not yet in the notified set, or none when there is
    no such threshold.  In particular a sample that is inside the arrived
    radius before anything was notified dispatches [arrived] alone: one
    dispatch, not four.  The legacy [checkNotifications] decides alike. *)
Theorem checkNotifications_fires_strictest (env : Env) (lat lng : jsval) (w : World) :
  let d := Utils.haversine lat lng (destLat (appState w)) (destLng (appState w)) in
  let seen := notified (appState w) in
  let fired := dispatches (trace (TrackingService.checkNotifications env lat lng) w) in
  fired = option_list (Spec.evaluate_strict d seen) /\
  (length fired <= 1)%nat /\
  (forall t, fired = [t] ->
     lt d (Spec.boundary t) = true /\ Spec.unseen seen t = true /\
     forall t', lt d (Spec.boundary t') = true -> Spec.unseen seen t' = true ->
                ge (Spec.boundary t') (Spec.boundary t) = true) /\
  (fired = [] ->
     forall t', lt d (Spec.boundary t') && Spec.unseen seen t' = false) /\
  (lt d CONFIG.distances.arrived = true -> Spec.unseen seen Spec.arrived = true ->
     fired = [Spec.arrived]) /\
  (forall g,
     dispatches (trace (Legacy.checkNotifications env d) g) =
     option_list (Spec.evaluate_strict d (Legacy.notified g))).
Proof.
  cbv zeta. unfold trace at 1 2 3 4 5. rewrite checkNotifications_run.
  set (d := Utils.haversine lat lng (destLat (appState w)) (destLng (appState w))).
  destruct (checkNotifications_at_trace env d w) as (Hd & _).
  unfold trace in Hd. rewrite Hd.
  pose proof (evaluate_strict_least d (notified (appState w))) as Hl.
  destruct (Spec.evaluate_strict d (notified (appState w))) as [t0 |] eqn:He.
  - split; [reflexivity |]. split; [simpl; lia |].
    split; [intros t Ht; injection Ht as <-; exact Hl |].
    split; [discriminate |].
    split; [| intros g; apply legacy_checkNotifications_trace].
    intros Ha Hu. revert He. unfold Spec.evaluate_strict, Spec.order. cbn [List.find].
    change (Spec.boundary Spec.arrived) with CONFIG.distances.arrived.
    rewrite Ha, Hu. cbn. intros [= <-]. reflexivity.
  - split; [reflexivity |]. split; [simpl; lia |].
    split; [discriminate |].
    split; [intros _; exact Hl |].
    split; [| intros g; apply legacy_checkNotifications_trace].
    intros Ha Hu. specialize (Hl Spec.arrived).
    change (Spec.boundary Spec.arrived) with CONFIG.distances.arrived in Hl.
    rewrite Ha, Hu in Hl. discriminate.
Qed.




Lemma alert_effects_no_stop (t : Spec.ThresholdId) (minutes : Z) :
  forallb (fun e => negb (is_stop e)) (alert_effects t minutes) = true.
Proof. destruct t; reflexivity. Qed.




Lemma evaluate_strict_fresh_near :
  Spec.evaluate_strict (Fin (9 / 10)) ∅ = Some Spec.near.
Proof.
  rewrite evaluate_strict_fresh_at.
  destruct (Rlt_dec (9 / 10) (3 / 10)); [lra |].
  destruct (Rlt_dec (9 / 10) (75 / 100)); [lra |].
  destruct (Rlt_dec (9 / 10) 1); [reflexivity | lra].
Qed.

(** C6, as stated, fails for [near]: at 0.9 km with nothing notified the
    program dispatches [near] with a system notification and a vibration,
    while the specification lists it as informational. *)
Lemma near_is_important_counterexample :
  let tr := trace (TrackingService.checkNotifications_at sample_env (Fin (9 / 10)))
                  (page_loaded None) in
  tr = [InAppNotification TrackingService.nearMessage info CONFIG.durations.medium;
        NativeNotification TrackingService.nearMessage info;
        Vibrate info;
        SetNotified "1km"] /\
  dispatches tr = [Spec.near] /\
  Spec.important Spec.near = false /\
  existsb is_native tr = true /\
  existsb is_haptic tr = true /\
  existsb is_native tr <> existsb Spec.important (dispatches tr).
Proof.
  cbv zeta.
  assert (trace (TrackingService.checkNotifications_at sample_env (Fin (9 / 10)))
                (page_loaded None) =
          [InAppNotification TrackingService.nearMessage info CONFIG.durations.medium;
           NativeNotification TrackingService.nearMessage info;
           Vibrate info; SetNotified "1km"]) as Hn.
  { unfold trace. rewrite checkNotifications_at_run.
    change (notified (appState (page_loaded None))) with (∅ : gmap string bool).
    rewrite evaluate_strict_fresh_near. reflexivity. }
  rewrite Hn. repeat split. discriminate.
Qed.

(** C6 (amended). For every threshold dispatched, the in-app banner is
    always shown; exactly [arrived], [close] and [near] are dispatched as
    important (system notification and vibration), [approaching] is the only
    informational one (banner only); and the audible alert plays only for
    [arrived].  The legacy script raises a plain alert for every threshold
    and plays the alarm, when the page has one, for [arrived] only. *)
Theorem important_channels (env : Env) (lat lng : jsval) (w : World) :
  let tr := trace (TrackingService.checkNotifications env lat lng) w in
  existsb is_native tr = existsb Spec.dispatched_important (dispatches tr) /\
  existsb is_haptic tr = existsb Spec.dispatched_important (dispatches tr) /\
  existsb is_audible tr =
    existsb (fun t => bool_decide (t = Spec.arrived)) (dispatches tr) /\
  (forall d g,
     let tr' := trace (Legacy.checkNotifications env d) g in
     existsb is_native tr' = false /\ existsb is_haptic tr' = false /\
     existsb is_audible tr' =
       alarmSound env &&
       existsb (fun t => bool_decide (t = Spec.arrived)) (dispatches tr')).
Proof.
  cbv zeta. split; [| split; [| split]].
  1-3: unfold trace; rewrite checkNotifications_run, checkNotifications_at_run;
    destruct (Spec.evaluate_strict _ (notified (appState w))) as [[] |];
    try reflexivity;
    rewrite handleArrival_run; cbn [snd]; unfold stop_effects;
    destruct (watchId (appState w)), (wakeLock w); reflexivity.
  intros d g. unfold trace. rewrite legacy_checkNotifications_run.
  destruct (Spec.evaluate_strict d (Legacy.notified g)) as [[] |];
    destruct (alarmSound env); repeat split.
Qed.

Lemma evaluate_strict_NaN (seen : gmap string bool) :
  Spec.evaluate_strict NaN seen = None.
Proof. reflexivity. Qed.

Lemma evaluate_strict_fresh_zero :
  Spec.evaluate_strict (Fin 0) ∅ = Some Spec.arrived.
Proof.
  rewrite evaluate_strict_fresh_at.
  destruct (Rlt_dec 0 (3 / 10)); [reflexivity | lra].
Qed.

(** C5, as stated, fails for the unset destination: on a page whose
    destination coordinates are still [null], a sample at the coordinate
    [(0, 0)] is at distance 0 from what the arithmetic reads as [(0, 0)], so
    [arrived] is dispatched and recorded. *)
Lemma unset_destination_counterexample :
  destLat (appState (page_loaded None)) = JSnull /\
  destLng (appState (page_loaded None)) = JSnull /\
  dispatches (trace (TrackingService.checkNotifications sample_env (Fin 0) (Fin 0))
                    (page_loaded None)) = [Spec.arrived] /\
  notified (appState (exec (TrackingService.checkNotifications sample_env (Fin 0) (Fin 0))
                           (page_loaded None))) !! "arrived" = Some true /\
  notified (appState (page_loaded None)) !! "arrived" = None.
Proof.
  split; [reflexivity |]. split; [reflexivity |].
  assert (Utils.haversine (Fin 0) (Fin 0) (destLat (appState (page_loaded None)))
            (destLng (appState (page_loaded None))) = Fin 0) as Hd
    by (cbn [page_loaded appState destLat destLng new_AppState];
        rewrite haversine_null_dest; apply haversine_same).
  unfold trace, exec. rewrite checkNotifications_run, Hd.
  destruct (checkNotifications_at_trace sample_env (Fin 0) (page_loaded None))
    as (Hdisp & _ & Hnot).
  unfold trace, exec in Hdisp, Hnot. rewrite Hdisp, Hnot.
  change (notified (appState (page_loaded None))) with (∅ : gmap string bool).
  rewrite evaluate_strict_fresh_zero.
  split; [reflexivity |]. split; [| apply lookup_empty].
  apply lookup_insert_eq.
Qed.

(** C5 (amended). For every state of the notified set, if the distance is
    [NaN] — as it is whenever a coordinate of the destination (or of the
    position) is [NaN] — the evaluation returns none: no threshold matches,
    nothing is dispatched and the state, the notified set included, is
    unchanged.  The legacy script behaves alike.  An unset ([null])
    destination is not set apart: its coordinates are read as 0 and the
    evaluation runs on the distance to [(0, 0)]. *)
Theorem nan_distance_fires_nothing (env : Env) (w : World) :
  TrackingService.checkNotifications_at env NaN w = (tt, w, []) /\
  (forall lat lng : jsval,
     Utils.haversine lat lng (destLat (appState w)) (destLng (appState w)) = NaN ->
     TrackingService.checkNotifications env lat lng w = (tt, w, [])) /\
  (forall lat lng : jsval,
     destLat (appState w) = NaN \/ destLng (appState w) = NaN \/
     lat = NaN \/ lng = NaN ->
     Utils.haversine lat lng (destLat (appState w)) (destLng (appState w)) = NaN /\
     TrackingService.checkNotifications env lat lng w = (tt, w, [])) /\
  (forall g, Legacy.checkNotifications env NaN g = (tt, g, [])) /\
  (forall g (lat lng : jsnum),
     Legacy.destLat g = NaN \/ Legacy.destLng g = NaN ->
     Legacy.onPosition env lat lng g = (tt, g, [Status NaN])) /\
  (forall lat lng : jsval,
     destLat (appState w) = JSnull -> destLng (appState w) = JSnull ->
     TrackingService.checkNotifications env lat lng w =
     TrackingService.checkNotifications_at env
       (Utils.haversine lat lng (Fin 0) (Fin 0)) w).
Proof.
  assert (TrackingService.checkNotifications_at env NaN w = (tt, w, [])) as HN
    by (rewrite checkNotifications_at_run, evaluate_strict_NaN; reflexivity).
  split; [exact HN |]. split; [| split; [| split; [| split]]].
  - intros lat lng Hd. rewrite checkNotifications_run, Hd. exact HN.
  - intros lat lng Hnan.
    assert (Utils.haversine lat lng (destLat (appState w)) (destLng (appState w)) = NaN)
      as Hd by (apply haversine_NaN_coordinate; tauto).
    split; [exact Hd |]. rewrite checkNotifications_run, Hd. exact HN.
  - intros g. rewrite legacy_checkNotifications_run, evaluate_strict_NaN. reflexivity.
  - intros g lat lng Hnan.
    assert (Legacy.haversine lat lng (Legacy.destLat g) (Legacy.destLng g) = NaN) as Hd
      by (apply haversine_NaN_coordinate; tauto).
    unfold Legacy.onPosition. unfold bind at 1. unfold get at 1. cbv zeta.
    rewrite Hd. unfold bind, emit.
    rewrite legacy_checkNotifications_run, evaluate_strict_NaN. reflexivity.
  - intros lat lng Hlat Hlng.
    rewrite checkNotifications_run, Hlat, Hlng, haversine_null_dest. reflexivity.
Qed.

End Evaluate.

(** ** Sequences of handlers *)

Section Session.

Lemma handlePositionUpdate_run (env : Env) (position : Position) (w : World) :
  let d := distance_of position w in
  let r := TrackingService.checkNotifications_at env d (positioned position w) in
  TrackingService.handlePositionUpdate env position w =
  (tt,
   mkWorld (with_map_fitted true (appState (snd (fst r))))
           (wakeLock (snd (fst r))) (tripHistory (snd (fst r))),
   Status d :: snd r).
Proof.
  cbv zeta.
  unfold TrackingService.handlePositionUpdate, TrackingService.updateUserMarker,
    TrackingService.updateStatus, TrackingService.updateRoute,
    TrackingService.fitMapBounds, bind, get, emit, modifyApp, modify, when, ret.
  change (TrackingService.checkNotifications env _ _ _)
    with (TrackingService.checkNotifications env (latitude position)
            (longitude position) (positioned position w)).
  rewrite checkNotifications_run.
  change (Utils.haversine _ _ _ _) with (distance_of position w).
  destruct (TrackingService.checkNotifications_at env (distance_of position w)
              (positioned position w)) as [[[] w2] t].
  destruct w2 as [[f um rc dl dg n wid tr st] wl th]. cbn.
  destruct f; cbn; rewrite app_nil_r; reflexivity.
Qed.

Lemma startPositionTracking_run (id : positive) (w : World) :
  TrackingService.startPositionTracking id w =
  (tt,
   mkWorld (with_watchId (Some id) (with_isTracking true (appState w)))
           (wakeLock w) (tripHistory w),
   match watchId (appState w) with Some old => [ClearWatch old] | None => [] end ++
   [WatchPosition id; BackupInterval]).
Proof.
  destruct w as [[f um rc dl dg n wid tr st] wl th].
  unfold TrackingService.startPositionTracking, bind, get, modifyApp, modify, emit, ret.
  destruct wid; reflexivity.
Qed.

Lemma evaluate_strict_unseen (d : jsnum) (seen : gmap string bool) (t : Spec.ThresholdId) :
  Spec.evaluate_strict d seen = Some t -> Spec.unseen seen t = true.
Proof.
  intros H. pose proof (evaluate_strict_least d seen) as Hl.
  rewrite H in Hl. apply Hl.
Qed.

(** What a handler other than [reset] dispatches and records. *)
Lemma run_effect (h : handler) (w : World) :
  h <> Reset ->
  dispatches (trace (run h) w) = option_list (fired_by h w) /\
  marks (trace (run h) w) = Spec.key <$> option_list (fired_by h w) /\
  notified (appState (exec (run h) w)) =
    match fired_by h w with
    | Some t => <[Spec.key t := true]> (notified (appState w))
    | None => notified (appState w)
    end.
Proof.
  intros Hh. destruct h as [env position | id | | |]; [| | | | contradiction].
  - unfold trace, exec, run. rewrite handlePositionUpdate_run. cbn [fst snd].
    destruct (checkNotifications_at_trace env (distance_of position w)
                (positioned position w)) as (Hd & Hm & Hn).
    unfold trace, exec in Hd, Hm, Hn.
    change (notified (appState (positioned position w)))
      with (notified (appState w)) in Hd, Hm, Hn.
    cbn [fired_by]. split; [exact Hd |]. split; [exact Hm |].
    rewrite <- Hn. reflexivity.
  - unfold trace, exec, run, bind, get, when.
    destruct (isTracking (appState w)); [| repeat split].
    rewrite startPositionTracking_run. cbn [fst snd fired_by].
    destruct (watchId (appState w)); repeat split.
  - unfold trace, exec, run, bind. rewrite stopTracking_run.
    destruct w as [[f um rc dl dg n wid tr st] wl th].
    unfold NotificationSystem.clear, NotificationSystem.releaseWakeLock,
      bind, get, emit, when, ret, stop_effects.
    destruct wid, wl; repeat split.
  - unfold trace, exec, run. rewrite stopTracking_run.
    destruct (stop_effects_quiet w) as (Hd & Hm & _).
    cbn [fst snd fired_by]. rewrite Hd, Hm. repeat split.
Qed.

Lemma run_all_cons (h : handler) (hs : list handler) (w : World) :
  trace (run_all (h :: hs)) w = trace (run h) w ++ trace (run_all hs) (exec (run h) w) /\
  exec (run_all (h :: hs)) w = exec (run_all hs) (exec (run h) w).
Proof.
  unfold trace, exec. cbn [run_all]. unfold bind.
  destruct (run h w) as [[[] w1] t1]. cbn [fst snd].
  destruct (run_all hs w1) as [[[] w2] t2]. split; reflexivity.
Qed.

Lemma key_inj : Inj (=) (=) Spec.key.
Proof. intros [] [] H; try reflexivity; discriminate. Qed.

Lemma is_notified_insert (w : World) (k k' : string) :
  truthy (<[k' := true]> (notified (appState w)) !! k) =
  if decide (k' = k) then true else is_notified w k.
Proof.
  unfold is_notified. destruct (decide (k' = k)) as [-> | Hne].
  - rewrite lookup_insert_eq. reflexivity.
  - rewrite lookup_insert_ne by exact Hne. reflexivity.
Qed.

(** One handler, [reset] apart, removes nothing from the notified set, and
    what it dispatches was not notified before and is notified after. *)
Lemma run_step (h : handler) (w : World) :
  h <> Reset ->
  (forall k, is_notified w k = true -> is_notified (exec (run h) w) k = true) /\
  (forall t, fired_by h w = Some t ->
     is_notified w (Spec.key t) = false /\
     is_notified (exec (run h) w) (Spec.key t) = true).
Proof.
  intros Hh. destruct (run_effect h w Hh) as (_ & _ & Hn). split.
  - intros k Hk. unfold is_notified at 1. rewrite Hn.
    destruct (fired_by h w) as [t |]; [| exact Hk].
    rewrite is_notified_insert. destruct (decide (Spec.key t = k)); [reflexivity | exact Hk].
  - intros t Ht. rewrite Ht in Hn. split.
    + destruct h as [env position | | | |]; try discriminate.
      cbn [fired_by] in Ht. apply evaluate_strict_unseen in Ht.
      unfold Spec.unseen in Ht. apply negb_true_iff in Ht. exact Ht.
    + unfold is_notified. rewrite Hn, lookup_insert_eq. reflexivity.
Qed.

(** The thresholds dispatched over a sequence of handlers without [reset]:
    none was notified at the start, none is dispatched twice, and the
    notified set only grows. *)
Lemma run_all_session (hs : list handler) :
  Forall (fun h => h <> Reset) hs ->
  forall w,
    (forall k, is_notified w k = true ->
               is_notified (exec (run_all hs) w) k = true) /\
    marks (trace (run_all hs) w) = Spec.key <$> dispatches (trace (run_all hs) w) /\
    NoDup (dispatches (trace (run_all hs) w)) /\
    (forall t, t ∈ dispatches (trace (run_all hs) w) ->
       is_notified w (Spec.key t) = false /\
       is_notified (exec (run_all hs) w) (Spec.key t) = true).
Proof.
  induction 1 as [| h hs Hh _ IH]; intros w.
  - repeat split; try (intros; assumption).
    + apply NoDup_nil_2.
    + apply elem_of_nil in H. contradiction.
    + apply elem_of_nil in H. contradiction.
  - destruct (run_all_cons h hs w) as [Htr Hex]. rewrite Htr, Hex.
    destruct (run_effect h w Hh) as (Hd & Hm & _).
    destruct (run_step h w Hh) as [Hmono Hfired].
    destruct (IH (exec (run h) w)) as (IHmono & IHm & IHnd & IHd).
    rewrite dispatches_app, marks_app, Hd, Hm, IHm.
    split; [| split; [| split]].
    + intros k Hk. apply IHmono, Hmono, Hk.
    + rewrite fmap_app. reflexivity.
    + destruct (fired_by h w) as [t0 |]; [| exact IHnd].
      cbn [option_list app]. apply NoDup_cons. split; [| exact IHnd].
      intros Hin. destruct (IHd t0 Hin) as [Hfalse _].
      destruct (Hfired t0 eq_refl) as [_ Htrue]. congruence.
    + intros t Ht. apply elem_of_app in Ht as [Ht | Ht].
      * destruct (fired_by h w) as [t0 |];
          [| apply elem_of_nil in Ht; contradiction].
        apply list_elem_of_singleton in Ht as ->.
        destruct (Hfired t0 eq_refl) as [Hf Htrue].
        split; [exact Hf | apply IHmono, Htrue].
      * destruct (IHd t Ht) as [Hf Htrue]. split; [| exact Htrue].
        destruct (is_notified w (Spec.key t)) eqn:E; [| reflexivity].
        apply Hmono in E. congruence.
Qed.

(** What one handler leaves alone, and what a sample sets. *)
Lemma run_frame (h : handler) (w : World) :
  let w' := exec (run h) w in
  destLat (appState w') = destLat (appState w) /\
  destLng (appState w') = destLng (appState w) /\
  (map_fitted (appState w) = true -> map_fitted (appState w') = true) /\
  (forall env position, h = PositionUpdate env position ->
     map_fitted (appState w') = true /\
     userMarker (appState w') = Some (latitude position, longitude position) /\
     routeControl (appState w') =
       Some ((latitude position, longitude position),
             (destLat (appState w), destLng (appState w)))).
Proof.
  cbv zeta. destruct h as [env position | id | | |].
  - unfold exec, run. rewrite handlePositionUpdate_run. cbn [fst snd].
    rewrite checkNotifications_at_run.
    destruct (Spec.evaluate_strict (distance_of position w)
                (notified (appState (positioned position w)))) as [[] |];
      try (rewrite handleArrival_run; unfold saved; destruct (storageOk env));
      (split; [reflexivity |]; split; [reflexivity |]; split; [reflexivity |];
       intros env' position' [= <- <-]; repeat split).
  - unfold exec, run, bind, get, when.
    destruct (isTracking (appState w)).
    + rewrite startPositionTracking_run.
      split; [reflexivity |]. split; [reflexivity |]. split; [intros H; exact H |].
      intros ? ? [=].
    + split; [reflexivity |]. split; [reflexivity |]. split; [intros H; exact H |].
      intros ? ? [=].
  - unfold exec, run, bind. rewrite stopTracking_run.
    destruct w as [[f um rc dl dg n wid tr st] wl th].
    unfold NotificationSystem.clear, NotificationSystem.releaseWakeLock,
      bind, get, emit, when, ret.
    split; [reflexivity |]. split; [reflexivity |]. split; [intros H; exact H |].
    intros ? ? [=].
  - unfold exec, run. rewrite stopTracking_run.
    split; [reflexivity |]. split; [reflexivity |]. split; [intros H; exact H |].
    intros ? ? [=].
  - destruct w as [[f um rc dl dg n wid tr st] wl th].
    unfold exec, run, AppState_reset, bind, get, modifyApp, modify, emit, ret.
    destruct wid; (split; [reflexivity |]; split; [reflexivity |];
                   split; [intros H; exact H |]; intros ? ? [=]).
Qed.

(** C3. Over every sequence of handlers without a session reset, from every
    state: the notified set only grows (a key that reads true keeps reading
    true), starting to track removes nothing either, every key is written at
    most once and every threshold dispatched at most once, and a threshold
    that was already notified is never dispatched or written again.  Only
    [reset] empties the set. *)
Theorem notified_grows_and_fires_once (hs : list handler) (w : World)
    (Hs : Forall (fun h => h <> Reset) hs) :
  let tr := trace (run_all hs) w in
  let w' := exec (run_all hs) w in
  (forall k, is_notified w k = true -> is_notified w' k = true) /\
  (forall env lat lon id,
     notified (appState (exec (TrackPageController.trackDestination env lat lon id) w)) =
     notified (appState w)) /\
  NoDup (marks tr) /\
  NoDup (dispatches tr) /\
  (forall t, t ∈ dispatches tr -> is_notified w (Spec.key t) = false) /\
  (forall k, k ∈ marks tr -> is_notified w k = false) /\
  (forall k, is_notified (exec (run Reset) w') k = false).
Proof.
  cbv zeta. destruct (run_all_session hs Hs w) as (Hmono & Hm & Hnd & Hd).
  split; [exact Hmono |]. split; [| split; [| split; [| split; [| split]]]].
  - intros env lat lon id. destruct w as [[f um rc dl dg n wid tr st] wl th].
    unfold exec, TrackPageController.trackDestination.
    unfold bind at 1 2. unfold modifyApp at 1 2, modify at 1 2.
    unfold bind at 1. rewrite startPositionTracking_run.
    reflexivity.
  - rewrite Hm. apply (NoDup_fmap_2 Spec.key (Inj0 := key_inj)). exact Hnd.
  - exact Hnd.
  - intros t Ht. apply (Hd t Ht).
  - intros k Hk. rewrite Hm in Hk. apply list_elem_of_fmap in Hk as (t & -> & Ht).
    apply (Hd t Ht).
  - intros k. destruct (exec (run_all hs) w) as [[f um rc dl dg n wid tr st] wl th].
    unfold is_notified, exec, run, AppState_reset, bind, get, modifyApp, modify, emit, ret.
    destruct wid; cbn; rewrite lookup_empty; reflexivity.
Qed.

Lemma evaluate_strict_at_zero (seen : gmap string bool) :
  Spec.evaluate_strict (Fin 0) seen = List.find (Spec.unseen seen) Spec.order.
Proof.
  unfold Spec.evaluate_strict, Spec.order. cbn [List.find].
  unfold Spec.boundary, CONFIG.distances.arrived, CONFIG.distances.close,
    CONFIG.distances.near, CONFIG.distances.approaching.
  rewrite !lt_Fin_true by lra. reflexivity.
Qed.

(** A sample at the very destination measures the distance 0. *)
Lemma fired_at_destination (env : Env) (w : World) :
  destLat (appState w) = Fin (69271 / 10000) ->
  destLng (appState w) = Fin (798612 / 10000) ->
  fired_by (PositionUpdate env sample_position) w =
  List.find (Spec.unseen (notified (appState w))) Spec.order.
Proof.
  intros Hlat Hlng. cbn [fired_by]. unfold distance_of.
  rewrite Hlat, Hlng. cbn [sample_position latitude longitude].
  rewrite haversine_same. apply evaluate_strict_at_zero.
Qed.

(** The sample session on the page that tracks to the sample destination:
    the first sample dispatches [arrived], the second one [close], and
    coming back to the page and stopping dispatch nothing. *)
Lemma sample_session_dispatches :
  dispatches (trace (run_all sample_session) tracking_started) =
  [Spec.arrived; Spec.close].
Proof.
  unfold sample_session.
  set (h := PositionUpdate sample_env sample_position).
  assert (h <> Reset) as Hh by discriminate.
  set (w0 := tracking_started).
  destruct (run_all_cons h [h; BecameVisible 2; StopTracking] w0) as [-> _].
  rewrite dispatches_app.
  destruct (run_effect h w0 Hh) as (Hd0 & _ & Hn0).
  destruct (run_frame h w0) as (Hlat0 & Hlng0 & _).
  assert (fired_by h w0 = Some Spec.arrived) as Hf0
    by (unfold h; rewrite fired_at_destination; reflexivity).
  rewrite Hf0 in Hd0, Hn0. rewrite Hd0.
  set (w1 := exec (run h) w0) in *.
  destruct (run_all_cons h [BecameVisible 2; StopTracking] w1) as [-> _].
  rewrite dispatches_app.
  destruct (run_effect h w1 Hh) as (Hd1 & _ & _).
  assert (fired_by h w1 = Some Spec.close) as Hf1.
  { unfold h. rewrite fired_at_destination; [| rewrite Hlat0; reflexivity
                                              | rewrite Hlng0; reflexivity].
    rewrite Hn0. unfold Spec.order, Spec.unseen. cbn [List.find Spec.key].
    rewrite lookup_insert_eq. cbn [truthy default negb].
    rewrite lookup_insert_ne by discriminate. reflexivity. }
  rewrite Hf1 in Hd1. rewrite Hd1.
  set (w2 := exec (run h) w1).
  destruct (run_all_cons (BecameVisible 2) [StopTracking] w2) as [-> _].
  rewrite dispatches_app.
  destruct (run_effect (BecameVisible 2) w2 ltac:(discriminate)) as (-> & _).
  destruct (run_all_cons StopTracking [] (exec (run (BecameVisible 2)) w2)) as [-> _].
  rewrite dispatches_app.
  destruct (run_effect StopTracking (exec (run (BecameVisible 2)) w2)
              ltac:(discriminate)) as (-> & _).
  reflexivity.
Qed.

(** On the page that tracks to the sample destination the sample session
    dispatches [arrived] and then [close], each once, and both were not
    notified before. *)
Lemma notified_grows_and_fires_once_witness :
  Forall (fun h => h <> Reset) sample_session /\
  dispatches (trace (run_all sample_session) tracking_started) =
    [Spec.arrived; Spec.close] /\
  NoDup (dispatches (trace (run_all sample_session) tracking_started)) /\
  NoDup (marks (trace (run_all sample_session) tracking_started)).
Proof.
  assert (Forall (fun h => h <> Reset) sample_session) as Hs
    by (repeat constructor; discriminate).
  split; [exact Hs |]. split; [exact sample_session_dispatches |].
  pose proof (notified_grows_and_fires_once sample_session tracking_started Hs) as H.
  cbv zeta in H.
  split; [exact (proj1 (proj2 (proj2 (proj2 H)))) | exact (proj1 (proj2 (proj2 H)))].
Defined.

(** ** Arrival *)

Lemma key_not_arrived (t : Spec.ThresholdId) :
  t <> Spec.arrived -> Spec.key t <> "arrived".
Proof. destruct t; intros H; [contradiction | discriminate..]. Qed.

(** Once [arrived] is notified the session is inactive; every handler keeps
    it so. *)
Lemma run_keeps_inactive (h : handler) (w : World) :
  (is_notified w "arrived" = true ->
   isTracking (appState w) = false /\ watchId (appState w) = None) ->
  is_notified (exec (run h) w) "arrived" = true ->
  isTracking (appState (exec (run h) w)) = false /\
  watchId (appState (exec (run h) w)) = None.
Proof.
  intros IH. destruct h as [env position | id | | |].
  - unfold exec, run. rewrite handlePositionUpdate_run. cbn [fst snd].
    rewrite checkNotifications_at_run.
    change (notified (appState (positioned position w))) with (notified (appState w)).
    destruct (Spec.evaluate_strict (distance_of position w) (notified (appState w)))
      as [t |] eqn:He.
    + destruct (decide (t = Spec.arrived)) as [-> | Hne].
      * rewrite handleArrival_run. intros _. split; reflexivity.
      * assert (forall X : unit * World * list event,
                  match t with
                  | Spec.arrived => X
                  | _ => (tt, marked (Spec.key t) (positioned position w),
                          alert_effects t 0 ++ [SetNotified (Spec.key t)])
                  end =
                  (tt, marked (Spec.key t) (positioned position w),
                   alert_effects t 0 ++ [SetNotified (Spec.key t)])) as Hm
          by (intros X; destruct t; [contradiction | reflexivity..]).
        rewrite Hm. cbn [fst snd].
        unfold is_notified; cbn [marked appState with_map_fitted with_notified notified].
        rewrite lookup_insert_ne by (apply key_not_arrived; exact Hne).
        intros H. apply IH in H. exact H.
    + cbn [fst snd]. intros H. apply IH in H. exact H.
  - unfold exec, run, bind, get, when.
    destruct (isTracking (appState w)) eqn:Et.
    + rewrite startPositionTracking_run. cbn [fst snd].
      unfold is_notified; cbn [appState with_watchId with_isTracking notified].
      intros H. apply IH in H as [H _]. discriminate.
    + unfold ret. cbn [fst snd]. intros H. apply IH in H as [_ H].
      split; [exact Et | exact H].
  - intros _. unfold exec, run, bind. rewrite stopTracking_run.
    destruct w as [[f um rc dl dg n wid tr st] wl th].
    unfold NotificationSystem.clear, NotificationSystem.releaseWakeLock,
      bind, get, emit, when, ret. split; reflexivity.
  - intros _. unfold exec, run. rewrite stopTracking_run. split; reflexivity.
  - destruct w as [[f um rc dl dg n wid tr st] wl th].
    unfold is_notified, exec, run, AppState_reset, bind, get, modifyApp, modify, emit, ret.
    destruct wid; cbn; rewrite lookup_empty; discriminate.
Qed.

Lemma trackDestination_run (env : Env) (lat lon : jsnum) (id : positive) (w : World) :
  TrackPageController.trackDestination env lat lon id w =
  (tt,
   mkWorld (with_trackingStartTime (Some (now env))
              (with_watchId (Some id)
                 (with_isTracking true
                    (with_map_fitted false (with_dest lat lon (appState w))))))
           (wakeLock w) (tripHistory w),
   match watchId (appState w) with Some old => [ClearWatch old] | None => [] end ++
   [WatchPosition id; BackupInterval;
    InAppNotification "Tracking started successfully!" success CONFIG.durations.short;
    NativeNotification "Tracking started successfully!" success;
    Vibrate success]).
Proof.
  destruct w as [[f um rc dl dg n wid tr st] wl th].
  unfold TrackPageController.trackDestination.
  unfold bind at 1 2. unfold modifyApp at 1 2, modify at 1 2.
  unfold bind at 1. rewrite startPositionTracking_run.
  destruct wid; reflexivity.
Qed.

(** The effects of one handler on the subscribed watches and on the trip
    log, read off its trace. *)
Lemma run_watches (h : handler) (w : World) :
  fold_left watch_step (trace (run h) w) (option_list (watchId (appState w))) =
  option_list (watchId (appState (exec (run h) w))).
Proof.
  destruct h as [env position | id | | |].
  - unfold trace, exec, run. rewrite handlePositionUpdate_run. cbn [fst snd].
    rewrite checkNotifications_at_run.
    change (notified (appState (positioned position w))) with (notified (appState w)).
    destruct (Spec.evaluate_strict (distance_of position w) (notified (appState w)))
      as [[] |]; try reflexivity.
    rewrite handleArrival_run. cbn [fst snd]. unfold stop_effects, save_effects, saved.
    change (watchId (appState (positioned position w))) with (watchId (appState w)).
    change (wakeLock (positioned position w)) with (wakeLock w).
    destruct (storageOk env), (watchId (appState w)), (wakeLock w); cbn;
      rewrite ?Pos.eqb_refl; reflexivity.
  - unfold trace, exec, run, bind, get, when.
    destruct (isTracking (appState w)); [| reflexivity].
    rewrite startPositionTracking_run. cbn [fst snd].
    destruct (watchId (appState w)); cbn; rewrite ?Pos.eqb_refl; reflexivity.
  - unfold trace, exec, run, bind. rewrite stopTracking_run.
    destruct w as [[f um rc dl dg n wid tr st] wl th].
    unfold NotificationSystem.clear, NotificationSystem.releaseWakeLock,
      bind, get, emit, when, ret, stop_effects.
    destruct wid, wl; cbn; rewrite ?Pos.eqb_refl; reflexivity.
  - unfold trace, exec, run. rewrite stopTracking_run. cbn [fst snd].
    unfold stop_effects.
    destruct (watchId (appState w)), (wakeLock w); cbn;
      rewrite ?Pos.eqb_refl; reflexivity.
  - destruct w as [[f um rc dl dg n wid tr st] wl th].
    unfold trace, exec, run, AppState_reset, bind, get, modifyApp, modify, emit, ret.
    destruct wid; cbn; rewrite ?Pos.eqb_refl; reflexivity.
Qed.

(** A handler writes the trip log only when it dispatches [arrived]: once
    when the storage works, not at all when it fails. *)
Lemma run_stores (h : handler) (w : World) :
  length (stores (trace (run h) w)) =
  if storage_works h then arrivals (trace (run h) w) else 0%nat.
Proof.
  unfold arrivals. destruct h as [env position | id | | |].
  - unfold trace, run. rewrite handlePositionUpdate_run. cbn [fst snd storage_works].
    rewrite checkNotifications_at_run.
    destruct (Spec.evaluate_strict (distance_of position w)
                (notified (appState (positioned position w)))) as [[] |];
      try (destruct (storageOk env); reflexivity).
    rewrite handleArrival_run. cbn [fst snd].
    change (Status (distance_of position w) :: ?t) with ([Status (distance_of position w)] ++ t).
    change (SetNotified "arrived" :: ?t) with ([SetNotified "arrived"] ++ t).
    destruct (stop_effects_quiet (positioned position w)) as (Hd & _ & Hst & _).
    destruct (save_effects_quiet env (destination env) (distance_of position w)
                (arrivalTrip env (distance_of position w) (positioned position w))
                (positioned position w)) as (Hsd & _).
    rewrite !stores_app, !dispatches_app, Hd, Hst, Hsd, stores_alert, dispatches_alert,
      stores_save_effects.
    destruct (storageOk env); reflexivity.
  - unfold trace, run, bind, get, when. cbn [storage_works].
    destruct (isTracking (appState w)); [| reflexivity].
    rewrite startPositionTracking_run. cbn [fst snd].
    destruct (watchId (appState w)); reflexivity.
  - unfold trace, run, bind. rewrite stopTracking_run.
    destruct w as [[f um rc dl dg n wid tr st] wl th].
    unfold NotificationSystem.clear, NotificationSystem.releaseWakeLock,
      bind, get, emit, when, ret, stop_effects.
    destruct wid, wl; reflexivity.
  - unfold trace, run. rewrite stopTracking_run. cbn [fst snd storage_works].
    destruct (stop_effects_quiet w) as (Hd & _ & Hst & _). rewrite Hd, Hst. reflexivity.
  - destruct w as [[f um rc dl dg n wid tr st] wl th].
    unfold trace, run, AppState_reset, bind, get, modifyApp, modify, emit, ret.
    destruct wid; reflexivity.
Qed.

Lemma run_stores_le (h : handler) (w : World) :
  (length (stores (trace (run h) w)) <= arrivals (trace (run h) w))%nat.
Proof. rewrite run_stores. destruct (storage_works h); lia. Qed.

(** Along every run of the page, the watch held in [watchId] is the only one
    subscribed, and the trip log was written at most once per dispatch of
    [arrived]. *)
Lemma reachable_effects (w : World) (tr : list event) :
  reachable w tr ->
  active_watches tr = option_list (watchId (appState w)) /\
  (length (stores tr) <= arrivals tr)%nat.
Proof.
  induction 1 as [stored | stored env lat lon id | w tr _ IH | w tr h _ [IHw IHs]].
  - split; reflexivity.
  - unfold exec, trace. rewrite trackDestination_run. split; [reflexivity |].
    cbn. lia.
  - exact IH.
  - split.
    + unfold active_watches in *. rewrite fold_left_app, IHw. apply run_watches.
    + pose proof (run_stores_le h w) as Hh.
      unfold arrivals in *. rewrite stores_app, dispatches_app, List.filter_app, !length_app.
      lia.
Qed.

Lemma reachable_arrived_inactive (w : World) (tr : list event) :
  reachable w tr ->
  is_notified w "arrived" = true ->
  isTracking (appState w) = false /\ watchId (appState w) = None.
Proof.
  induction 1 as [stored | stored env lat lon id | w tr _ IH | w tr h _ IH].
  - unfold is_notified. cbn. rewrite lookup_empty. discriminate.
  - unfold is_notified, exec. rewrite trackDestination_run.
    cbn. rewrite lookup_empty. discriminate.
  - exact IH.
  - apply run_keeps_inactive. exact IH.
Qed.





(** The invariant is not vacuous: tracking to the sample destination and
    receiving a sample at that very coordinate reaches a state in which
    [arrived] is notified. *)
Lemma arrived_state_reachable :
  let start := TrackPageController.trackDestination sample_env
                 (Fin (69271 / 10000)) (Fin (798612 / 10000)) 1 in
  let sample := run (PositionUpdate sample_env sample_position) in
  let w0 := exec start (page_loaded None) in
  let w := exec sample w0 in
  let tr := trace start (page_loaded None) ++ trace sample w0 in
  reachable w tr /\ is_notified w "arrived" = true /\
  isTracking (appState w) = false /\ watchId (appState w) = None /\
  active_watches tr = [] /\ length (stores tr) = 1%nat.
Proof.
  cbv zeta.
  set (start := TrackPageController.trackDestination sample_env
                  (Fin (69271 / 10000)) (Fin (798612 / 10000)) 1).
  set (w0 := exec start (page_loaded None)).
  set (sample := run (PositionUpdate sample_env sample_position)).
  assert (reachable (exec sample w0) (trace start (page_loaded None) ++ trace sample w0))
    as Hr by (apply reach_run, reach_tracking).
  split; [exact Hr |].
  assert (TrackingService.checkNotifications_at sample_env
            (distance_of sample_position w0) (positioned sample_position w0) =
          TrackingService.handleArrival sample_env (Fin 0)
            (positioned sample_position w0)) as Hc.
  { rewrite checkNotifications_at_run.
    assert (distance_of sample_position w0 = Fin 0) as -> by apply haversine_same.
    change (notified (appState (positioned sample_position w0)))
      with (∅ : gmap string bool).
    rewrite evaluate_strict_fresh_zero. reflexivity. }
  assert (is_notified (exec sample w0) "arrived" = true) as Hn.
  { unfold exec at 1, sample, run. rewrite handlePositionUpdate_run. cbn [fst snd].
    rewrite Hc, handleArrival_run. cbn [fst snd].
    unfold is_notified. cbn. rewrite lookup_insert_eq. reflexivity. }
  split; [exact Hn |].
  destruct (reachable_arrived_inactive _ _ Hr Hn) as [Ht Hid].
  destruct (reachable_effects _ _ Hr) as [Hw Hs].
  split; [exact Ht |]. split; [exact Hid |].
  split; [rewrite Hw, Hid; reflexivity |].
  unfold trace at 2, sample, run.
  rewrite handlePositionUpdate_run. cbn [fst snd].
  rewrite Hc, handleArrival_run. cbn [fst snd].
  unfold trace, start. rewrite trackDestination_run. cbn [fst snd].
  destruct (stop_effects_quiet (positioned sample_position w0)) as (_ & _ & Hst & _).
  change (Status (distance_of sample_position w0) :: ?t)
    with ([Status (distance_of sample_position w0)] ++ t).
  change (SetNotified "arrived" :: ?t) with ([SetNotified "arrived"] ++ t).
  rewrite !stores_app, Hst, stores_alert, stores_save_effects. reflexivity.
Qed.

End Session.

(** ** The trip log *)

Section TripLog.





End TripLog.

(** ** Stopping *)

Section Stop.

(** C9. [stopTracking] touches only the tracking activity: afterwards
    [isTracking] is false, no watch is held and the wake lock is released,
    while the notified set, the destination, the start time, the map state
    and the trip log are what they were; and a second call in a row changes
    nothing and has no effect at all. *)
Theorem stopTracking_frame_idempotent (w : World) :
  let w' := exec TrackingService.stopTracking w in
  notified (appState w') = notified (appState w) /\
  destLat (appState w') = destLat (appState w) /\
  destLng (appState w') = destLng (appState w) /\
  trackingStartTime (appState w') = trackingStartTime (appState w) /\
  map_fitted (appState w') = map_fitted (appState w) /\
  userMarker (appState w') = userMarker (appState w) /\
  routeControl (appState w') = routeControl (appState w) /\
  tripHistory w' = tripHistory w /\
  isTracking (appState w') = false /\
  watchId (appState w') = None /\
  wakeLock w' = false /\
  exec TrackingService.stopTracking w' = w' /\
  trace TrackingService.stopTracking w' = [].
Proof.
  cbv zeta. unfold exec, trace. rewrite !stopTracking_run. cbn [fst snd].
  repeat split.
Qed.

End Stop.

(* ================================================================== *)
(** * Further properties of the code                                   *)
(* ================================================================== *)

(** ** [Utils.formatTimestamp] *)

Section FormatTimestamp.

Local Open Scope Z_scope.

(** X1. [formatTimestamp] depends on the age [now - timestamp] alone: below
    one minute (a timestamp in the future included) it says "Just now";
    from one minute it counts whole minutes, from one hour whole hours, from
    one day whole days, and from seven days on it prints the date.  The
    count it prints is never zero: minutes are in 1..59, hours in 1..23 and
    days in 1..6. *)
Theorem formatTimestamp_by_age (toLocaleDateString : Z -> string) (now timestamp : Z) :
  let age := now - timestamp in
  Timestamps.formatTimestamp toLocaleDateString now timestamp =
    (if age <? 60000 then "Just now"
     else if age <? 3600000 then pretty (age / 60000) +:+ "m ago"
     else if age <? 86400000 then pretty (age / 3600000) +:+ "h ago"
     else if age <? 604800000 then pretty (age / 86400000) +:+ "d ago"
     else toLocaleDateString timestamp) /\
  (60000 <= age < 3600000 -> 1 <= age / 60000 <= 59) /\
  (3600000 <= age < 86400000 -> 1 <= age / 3600000 <= 23) /\
  (86400000 <= age < 604800000 -> 1 <= age / 86400000 <= 6).
Proof.
  cbv zeta. unfold Timestamps.formatTimestamp.
  set (age := now - timestamp).
  split; [| repeat split; Z.to_euclidean_division_equations; lia].
  destruct (Z.ltb_spec (age / 60000) 1), (Z.ltb_spec age 60000);
    try (exfalso; Z.to_euclidean_division_equations; lia); [reflexivity |].
  destruct (Z.ltb_spec (age / 60000) 60), (Z.ltb_spec age 3600000);
    try (exfalso; Z.to_euclidean_division_equations; lia); [reflexivity |].
  destruct (Z.ltb_spec (age / 3600000) 24), (Z.ltb_spec age 86400000);
    try (exfalso; Z.to_euclidean_division_equations; lia); [reflexivity |].
  destruct (Z.ltb_spec (age / 86400000) 7), (Z.ltb_spec age 604800000);
    try (exfalso; Z.to_euclidean_division_equations; lia); reflexivity.
Qed.

End FormatTimestamp.

(** ** [Utils.retryOperation] *)

Section RetryOperation.

Context {A E : Type}.

Lemma retry_from_S (operation : nat -> A + E) (maxRetries : nat) (delay : Z)
    (i r : nat) :
  Retry.retry_from operation maxRetries delay i (S r) =
  match operation i with
  | inl a => (Retry.Returned a, [])
  | inr e =>
      if Nat.eqb i (maxRetries - 1) then (Retry.Threw e, [])
      else
        let '(o, pauses) := Retry.retry_from operation maxRetries delay (S i) r in
        (o, (delay * 2 ^ Z.of_nat i)%Z :: pauses)
  end.
Proof. reflexivity. Qed.

Lemma retry_from_spec (operation : nat -> A + E) (maxRetries : nat) (delay : Z)
    (r i : nat) :
  (i + S r = maxRetries)%nat ->
  exists k,
    (i + k < maxRetries)%nat /\
    (forall j, (i <= j < i + k)%nat -> exists e, operation j = inr e) /\
    snd (Retry.retry_from operation maxRetries delay i (S r)) =
      (fun j => (delay * 2 ^ Z.of_nat j)%Z) <$> seq i k /\
    fst (Retry.retry_from operation maxRetries delay i (S r)) =
      match operation (i + k)%nat with
      | inl a => Retry.Returned a
      | inr e => Retry.Threw e
      end /\
    (forall e, operation (i + k)%nat = inr e -> (i + k = maxRetries - 1)%nat).
Proof.
  revert i. induction r as [| r IH]; intros i Hi.
  - exists 0%nat. rewrite Nat.add_0_r. cbn [Retry.retry_from].
    assert (Nat.eqb i (maxRetries - 1) = true) as Hlast by (apply Nat.eqb_eq; lia).
    split; [lia |]. split; [intros j Hj; lia |].
    destruct (operation i) as [a | e]; [| rewrite Hlast]; repeat split; intros; lia.
  - rewrite (retry_from_S operation maxRetries delay i (S r)).
    destruct (operation i) as [a | e] eqn:Hop.
    + exists 0%nat. rewrite Nat.add_0_r, Hop.
      split; [lia |]. split; [intros j Hj; lia |]. repeat split. intros; discriminate.
    + assert (Nat.eqb i (maxRetries - 1) = false) as Hlast by (apply Nat.eqb_neq; lia).
      rewrite Hlast.
      destruct (IH (S i)) as (k & Hk & Hfail & Hp & Ho & Hend); [lia |].
      destruct (Retry.retry_from operation maxRetries delay (S i) (S r)) as [o p].
      cbv beta iota zeta. cbn [fst snd] in *.
      exists (S k). replace (i + S k)%nat with (S i + k)%nat by lia.
      split; [lia |]. split; [| split; [| split]].
      * intros j Hj. destruct (decide (j = i)) as [-> | Hne]; [eauto |].
        apply Hfail. lia.
      * cbn [seq fmap list_fmap]. rewrite Hp. reflexivity.
      * exact Ho.
      * exact Hend.
Qed.

Lemma geometric_pauses (delay : Z) (k : nat) :
  foldr Z.add 0%Z ((fun j => (delay * 2 ^ Z.of_nat j)%Z) <$> seq 0 k) =
  (delay * (2 ^ Z.of_nat k - 1))%Z.
Proof.
  induction k as [| k IH].
  - cbn. lia.
  - rewrite seq_S, fmap_app, foldr_app. cbn [fmap list_fmap foldr Nat.add].
    assert (forall (l : list Z) (x : Z),
              foldr Z.add x l = (foldr Z.add 0 l + x)%Z) as Hshift.
    { induction l as [| y l IHl]; intros x; cbn [foldr]; [lia |].
      rewrite IHl. lia. }
    rewrite Hshift, IH, Nat2Z.inj_succ, Z.pow_succ_r by lia. lia.
Qed.

(** X2. [retryOperation] calls the operation until it succeeds, at most
    [maxRetries] times: it returns the value of the first successful call
    among these, and throws the error of the last call when all of them
    fail.  Before each further call it pauses [delay * 2^j] after the
    [j]-th failure, so [k] failures before the end cost
    [delay * (2^k - 1)] in all, with no pause after the last failure.  With
    [maxRetries = 0] the operation is never called and the result is
    [undefined]. *)
Theorem retryOperation_outcome (operation : nat -> A + E) (maxRetries : nat)
    (delay : Z) :
  let result := Retry.retryOperation operation maxRetries delay in
  (maxRetries = 0%nat -> result = (Retry.Undefined, [])) /\
  ((0 < maxRetries)%nat ->
   exists k,
     (k < maxRetries)%nat /\
     (forall j, (j < k)%nat -> exists e, operation j = inr e) /\
     snd result = (fun j => (delay * 2 ^ Z.of_nat j)%Z) <$> seq 0 k /\
     foldr Z.add 0%Z (snd result) = (delay * (2 ^ Z.of_nat k - 1))%Z /\
     match operation k with
     | inl a => fst result = Retry.Returned a
     | inr e => fst result = Retry.Threw e /\ k = (maxRetries - 1)%nat
     end).
Proof.
  cbv zeta. unfold Retry.retryOperation. split.
  - intros ->. reflexivity.
  - intros Hpos. destruct maxRetries as [| r]; [lia |].
    destruct (retry_from_spec operation (S r) delay r 0 eq_refl)
      as (k & Hk & Hfail & Hp & Ho & Hend).
    cbn [Nat.add] in *. exists k.
    split; [exact Hk |]. split; [intros j Hj; apply Hfail; lia |].
    split; [exact Hp |]. split; [rewrite Hp; apply geometric_pauses |].
    destruct (operation k) as [a | e]; [exact Ho |].
    split; [exact Ho | apply (Hend e eq_refl)].
Qed.

End RetryOperation.

(** ** The search history in the storage *)

Section SearchHistoryStorage.

Import SearchHistory.

Lemma List_filter_sublist {A : Type} (f : A -> bool) (l : list A) :
  List.filter f l `sublist_of` l.
Proof.
  induction l as [| x l IH]; cbn [List.filter]; [constructor |].
  destruct (f x); [apply sublist_skip | apply sublist_cons]; exact IH.
Qed.

Lemma List_filter_elem_of {A : Type} (f : A -> bool) (l : list A) (x : A) :
  x ∈ List.filter f l <-> x ∈ l /\ f x = true.
Proof. rewrite !list_elem_of_In. apply filter_In. Qed.

Lemma saveSearchHistory_eq (env : Env) (destination : string)
    (stored : option (list Item)) :
  saveSearchHistory env destination stored =
  take CONFIG.storage.maxHistory
    (ItemObject destination (now env) (Some (freshId env)) ::
     List.filter (fun item => negb (String.eqb (item_query item) destination))
                 (default [] stored)).
Proof.
  unfold saveSearchHistory. cbv zeta.
  destruct (Nat.ltb_spec CONFIG.storage.maxHistory
              (length (ItemObject destination (now env) (Some (freshId env)) ::
                       List.filter (fun item => negb (String.eqb (item_query item)
                                                        destination))
                                   (default [] stored)))) as [H | H].
  - reflexivity.
  - symmetry. apply take_ge. exact H.
Qed.


(** X4. When the stored queries are pairwise distinct, they still are after
    [saveSearchHistory], whatever the destination; and saving the same
    destination again changes nothing but the first entry's time and id. *)
Theorem saveSearchHistory_keeps_distinct (env : Env) (destination : string)
    (stored : option (list Item))
    (Hd : NoDup (item_query <$> default [] stored)) :
  NoDup (item_query <$> saveSearchHistory env destination stored) /\
  (forall env',
     tail (saveSearchHistory env' destination
             (Some (saveSearchHistory env destination stored))) =
     tail (saveSearchHistory env destination stored)).
Proof.
  rewrite !saveSearchHistory_eq. unfold CONFIG.storage.maxHistory.
  set (keep := fun item => negb (String.eqb (item_query item) destination)).
  set (kept := List.filter keep (default [] stored)).
  change (take 50 (?x :: kept)) with (x :: take 49 kept).
  assert (kept `sublist_of` default [] stored) as Hsub by apply List_filter_sublist.
  assert (forall item, item ∈ kept -> item_query item <> destination) as Hne.
  { intros item Hin. apply List_filter_elem_of in Hin as [_ Hq].
    apply negb_true_iff, String.eqb_neq in Hq. exact Hq. }
  split.
  - cbn [fmap list_fmap item_query]. apply NoDup_cons. split.
    + intros Hin. apply list_elem_of_fmap in Hin as (item & Heq & Hin).
      apply elem_of_take in Hin as (i & Hi & _). apply list_elem_of_lookup_2 in Hi.
      apply (Hne item Hi). symmetry. exact Heq.
    + apply (sublist_NoDup _ (item_query <$> default [] stored)); [exact Hd |].
      apply fmap_sublist. etransitivity; [apply sublist_take | exact Hsub].
  - intros env'. rewrite saveSearchHistory_eq. unfold CONFIG.storage.maxHistory.
    change (default [] (Some ?l)) with l.
    cbn [List.filter item_query]. rewrite String.eqb_refl. cbn [negb].
    fold keep.
    assert (List.filter keep (take 49 kept) = take 49 kept) as ->.
    { apply forallb_filter_id. apply forallb_forall. intros item Hin.
      apply list_elem_of_In, elem_of_take in Hin as (i & Hi & _).
      apply list_elem_of_lookup_2, List_filter_elem_of in Hi as [_ Hq]. exact Hq. }
    change (take 50 (?x :: take 49 kept)) with (x :: take 49 (take 49 kept)).
    cbn [tail]. rewrite take_take. f_equal.
Qed.

Lemma saveSearchHistory_keeps_distinct_witness :
  NoDup (item_query <$> default [] sample_history) /\
  NoDup (item_query <$> saveSearchHistory sample_env "Galle" sample_history).
Proof.
  assert (NoDup (item_query <$> default [] sample_history)) as Hd
    by (apply (bool_decide_unpack _); reflexivity).
  split; [exact Hd |].
  exact (proj1 (saveSearchHistory_keeps_distinct sample_env "Galle" sample_history Hd)).
Defined.

Lemma existsb_is_string (value : string) (l : list Item) :
  existsb (is_string value) l = true <-> ItemString value ∈ l.
Proof.
  rewrite existsb_exists. split.
  - intros (item & Hin & His). destruct item as [s |]; [| discriminate].
    apply String.eqb_eq in His as ->. apply list_elem_of_In. exact Hin.
  - intros Hin. exists (ItemString value). split; [apply list_elem_of_In, Hin |].
    apply String.eqb_refl.
Qed.

Lemma legacy_saveSearch_nonempty (value : string) (stored : option (list Item)) :
  value <> EmptyString ->
  legacy_saveSearch value stored =
  if negb (existsb (is_string value) (default [] stored))
  then Some (default [] stored ++ [ItemString value])
  else None.
Proof. destruct value; [contradiction | reflexivity]. Qed.

(** X5. The click handler of script.js writes nothing for an empty value.
    For any other value it writes the search history only when no bare
    string equal to the value is stored: it then appends the value at the
    end, so a second click with the same value writes nothing, and a
    history without repeated items stays so.  An object entry with the same
    query does not count as present. *)
Theorem legacy_saveSearch_once (value : string) (stored : option (list Item)) :
  let old := default [] stored in
  legacy_saveSearch EmptyString stored = None /\
  (match legacy_saveSearch value stored with
   | Some h =>
       value <> EmptyString /\
       (ItemString value ∉ old) /\
       h = old ++ [ItemString value] /\
       legacy_saveSearch value (Some h) = None /\
       (NoDup old -> NoDup h)
   | None => value = EmptyString \/ ItemString value ∈ old
   end) /\
  (value <> EmptyString -> (ItemString value ∉ old) ->
   legacy_saveSearch value stored = Some (old ++ [ItemString value])) /\
  (forall t i, value <> EmptyString ->
     legacy_saveSearch value (Some [ItemObject value t i]) =
     Some [ItemObject value t i; ItemString value]).
Proof.
  cbv zeta. split; [reflexivity |].
  destruct (decide (value = EmptyString)) as [-> | Hne].
  { split; [left; reflexivity |]. split; [contradiction |]. intros t i H. contradiction. }
  rewrite (legacy_saveSearch_nonempty value stored Hne).
  split; [| split].
  - destruct (existsb (is_string value) (default [] stored)) eqn:Hex; cbn [negb].
    + right. apply existsb_is_string. exact Hex.
    + assert (ItemString value ∉ default [] stored) as Hnot.
      { intros Hin. apply existsb_is_string in Hin. congruence. }
      split; [exact Hne |]. split; [exact Hnot |]. split; [reflexivity |]. split.
      * rewrite (legacy_saveSearch_nonempty _ _ Hne).
        change (default [] (Some ?l)) with l.
        rewrite existsb_app. cbn [existsb is_string]. rewrite String.eqb_refl.
        rewrite orb_true_r. reflexivity.
      * intros Hnd. apply NoDup_app. split; [exact Hnd |]. split.
        -- intros x Hx Hx'. apply list_elem_of_singleton in Hx' as ->. contradiction.
        -- apply NoDup_singleton.
  - intros _ Hnot.
    destruct (existsb (is_string value) (default [] stored)) eqn:Hex; [| reflexivity].
    apply existsb_is_string in Hex. contradiction.
  - intros t i _. rewrite (legacy_saveSearch_nonempty _ _ Hne). reflexivity.
Qed.

End SearchHistoryStorage.

(** ** [SearchHistoryManager] *)

Section SearchHistoryManager.

Import SearchHistory.

Lemma loadItems_spec (host : Host) (now : Z) (items : list Item) (k : nat) :
  query <$> loadItems host now k items = item_query <$> items /\
  (forall i q t s,
     items !! i = Some (ItemObject q t (Some s)) -> s <> EmptyString ->
     loadItems host now k items !! i = Some (mkEntry q t s)) /\
  (forall i s,
     items !! i = Some (ItemString s) ->
     exists j, loadItems host now k items !! i = Some (mkEntry s now (generateId host j))) /\
  ((forall j, generateId host j <> EmptyString) ->
   forall e, e ∈ loadItems host now k items -> id e <> EmptyString).
Proof.
  revert k. induction items as [| item items IH]; intros k.
  - repeat split; intros; try discriminate.
    apply elem_of_nil in H0. contradiction.
  - destruct item as [s | q t i].
    + cbn [loadItems]. destruct (IH (S k)) as (Hq & Hid & Hstr & Hne).
      split; [cbn; f_equal; exact Hq |]. split; [| split].
      * intros [| n] q t s' Hl Hs'; [discriminate | apply (Hid n q t s' Hl Hs')].
      * intros [| n] s' Hl; [injection Hl as <-; eexists; reflexivity |].
        apply (Hstr n s' Hl).
      * intros Hgen e He. apply elem_of_cons in He as [-> | He]; [apply Hgen |].
        apply (Hne Hgen e He).
    + cbn [loadItems]. destruct (usable_id i) as [s |] eqn:Hu.
      * destruct (IH k) as (Hq & Hid & Hstr & Hne).
        split; [cbn; f_equal; exact Hq |]. split; [| split].
        -- intros [| n] q' t' s' Hl Hs'; [| apply (Hid n q' t' s' Hl Hs')].
           injection Hl as -> -> ->. cbn [usable_id] in Hu.
           destruct (String.eqb s' EmptyString) eqn:He;
             [apply String.eqb_eq in He; contradiction |].
           injection Hu as <-. reflexivity.
        -- intros [| n] s' Hl; [discriminate | apply (Hstr n s' Hl)].
        -- intros Hgen e He. apply elem_of_cons in He as [-> | He];
             [| apply (Hne Hgen e He)].
           cbn [id]. destruct i as [s' |]; [| discriminate]. cbn [usable_id] in Hu.
           destruct (String.eqb s' EmptyString) eqn:He; [discriminate |].
           injection Hu as <-. apply String.eqb_neq. exact He.
      * destruct (IH (S k)) as (Hq & Hid & Hstr & Hne).
        split; [cbn; f_equal; exact Hq |]. split; [| split].
        -- intros [| n] q' t' s' Hl Hs'; [| apply (Hid n q' t' s' Hl Hs')].
           injection Hl as -> -> ->. cbn [usable_id] in Hu.
           destruct (String.eqb s' EmptyString) eqn:He; [| discriminate].
           apply String.eqb_eq in He. contradiction.
        -- intros [| n] s' Hl; [discriminate | apply (Hstr n s' Hl)].
        -- intros Hgen e He. apply elem_of_cons in He as [-> | He]; [apply Hgen |].
           apply (Hne Hgen e He).
Qed.

(** X6. [loadHistory] turns every stored item into an entry and keeps their
    number, their order and their queries: an object with a non-empty id
    keeps its time and its id, a bare string gets the current time and a
    generated id, and when the generated ids are non-empty every loaded
    entry has a non-empty id.  An absent storage entry loads as the empty
    history. *)
Theorem loadHistory_keeps_queries (host : Host) (now : Z)
    (stored : option (list Item)) :
  let h := loadHistory host now stored in
  query <$> h = item_query <$> default [] stored /\
  length h = length (default [] stored) /\
  (forall i q t s,
     default [] stored !! i = Some (ItemObject q t (Some s)) -> s <> EmptyString ->
     h !! i = Some (mkEntry q t s)) /\
  (forall i s,
     default [] stored !! i = Some (ItemString s) ->
     exists j, h !! i = Some (mkEntry s now (generateId host j))) /\
  ((forall j, generateId host j <> EmptyString) ->
   forall e, e ∈ h -> id e <> EmptyString) /\
  loadHistory host now None = [].
Proof.
  cbv zeta. unfold loadHistory.
  destruct (loadItems_spec host now (default [] stored) 0) as (Hq & Hid & Hstr & Hne).
  split; [exact Hq |]. split.
  { apply (f_equal length) in Hq. rewrite !length_fmap in Hq. exact Hq. }
  split; [exact Hid |]. split; [exact Hstr |]. split; [exact Hne | reflexivity].
Qed.








Lemma includes_empty (s : string) : includes EmptyString s = true.
Proof. destruct s; reflexivity. Qed.

(** X10. [filterHistory] changes neither the history nor the storage.  The
    filtered list it leaves, which is also what the container then shows,
    holds exactly the entries whose lower-cased query includes the
    lower-cased text, in the order of the history; a text that lower-cases
    to the empty string keeps them all.  It warns exactly when the text is
    not empty and nothing matches. *)
Theorem filterHistory_effect (host : Host) (q : string) (m : Manager) :
  let m' := exec (filterHistory host q) m in
  let matches e := includes (toLowerCase host q) (toLowerCase host (query e)) in
  history m' = history m /\
  stored m' = stored m /\
  filteredHistory m' = List.filter matches (history m) /\
  rendered m' = filteredHistory m' /\
  filteredHistory m' `sublist_of` history m /\
  (forall e, e ∈ filteredHistory m' <-> e ∈ history m /\ matches e = true) /\
  (toLowerCase host q = EmptyString -> filteredHistory m' = history m) /\
  trace (filterHistory host q) m =
    (if negb (String.eqb q EmptyString) &&
        Nat.eqb (length (List.filter matches (history m))) 0
     then [InAppNotification "No matches found for your search" warning
             CONFIG.durations.medium]
     else []).
Proof.
  cbv zeta.
  set (matches := fun e => includes (toLowerCase host q) (toLowerCase host (query e))).
  assert (filterHistory host q m =
          (tt,
           mkManager (history m) (List.filter matches (history m)) (stored m)
                     (List.filter matches (history m)) (counters m),
           if negb (String.eqb q EmptyString) &&
              Nat.eqb (length (List.filter matches (history m))) 0
           then [InAppNotification "No matches found for your search" warning
                   CONFIG.durations.medium]
           else [])) as Hrun.
  { unfold filterHistory, renderHistory, bind, get, modify, when, show, emit, ret.
    subst matches. cbv beta iota zeta.
    cbn [history filteredHistory stored rendered counters].
    match goal with
    | |- context [if ?c then _ else _] => destruct c
    end; reflexivity. }
  unfold exec, trace. rewrite Hrun. cbn [fst snd history stored filteredHistory rendered].
  split; [reflexivity |]. split; [reflexivity |]. split; [reflexivity |].
  split; [reflexivity |]. split; [apply List_filter_sublist |].
  split; [intros e; apply List_filter_elem_of |]. split; [| reflexivity].
  intros Hq. apply forallb_filter_id, forallb_forall. intros e _.
  unfold matches. rewrite Hq. apply includes_empty.
Qed.

(** X11. The counters of [updateStats]: the first is the length of the
    history; the searches of today and the distinct queries (up to case)
    are each at most that many; and the distinct count equals the length
    when no two queries are equal up to case. *)
Theorem stats_bounds (host : Host) (h : list Entry) :
  let '(total, today, unique) := stats host h in
  total = length h /\ (today <= total)%nat /\ (unique <= total)%nat /\
  (NoDup ((fun e => toLowerCase host (query e)) <$> h) -> unique = total).
Proof.
  unfold stats. split; [reflexivity |]. split; [apply List.filter_length_le |].
  set (l := (fun e => toLowerCase host (query e)) <$> h).
  assert (length l = length h) as <- by apply length_fmap.
  split; [| apply size_list_to_set].
  clearbody l. clear h. induction l as [| x l IH].
  - rewrite list_to_set_nil, size_empty. cbn. lia.
  - rewrite list_to_set_cons, size_union_alt, size_singleton. cbn [length].
    assert (size (list_to_set (C := gset string) l ∖ {[x]}) <=
            size (list_to_set (C := gset string) l))%nat
      as Hsz by (apply subseteq_size, subseteq_difference_l; reflexivity).
    lia.
Qed.

End SearchHistoryManager.

(** ** More on the tracking session *)

Section TrackingSession.

(** X12. [AppState.reset] empties the notified set, clears the tracking flag
    and the start time, and clears and forgets the watch if one is held; the
    destination, the map state and the trip log stay, and so does the wake
    lock, which only [stopTracking] releases.  A second [reset] in a row
    changes nothing and has no effect. *)
Theorem reset_effect (w : World) :
  let w' := exec AppState_reset w in
  notified (appState w') = ∅ /\
  isTracking (appState w') = false /\
  trackingStartTime (appState w') = None /\
  watchId (appState w') = None /\
  destLat (appState w') = destLat (appState w) /\
  destLng (appState w') = destLng (appState w) /\
  map_fitted (appState w') = map_fitted (appState w) /\
  userMarker (appState w') = userMarker (appState w) /\
  routeControl (appState w') = routeControl (appState w) /\
  tripHistory w' = tripHistory w /\
  wakeLock w' = wakeLock w /\
  trace AppState_reset w =
    match watchId (appState w) with Some id => [ClearWatch id] | None => [] end /\
  exec AppState_reset w' = w' /\
  trace AppState_reset w' = [].
Proof.
  destruct w as [[f um rc dl dg n wid tr st] wl th].
  cbv zeta. unfold exec, trace, AppState_reset, bind, get, modifyApp, modify, emit, ret.
  destruct wid; repeat split.
Qed.

Lemma run_tracking_watch (h : handler) (w : World) :
  isTracking (appState w) = bool_decide (is_Some (watchId (appState w))) ->
  isTracking (appState (exec (run h) w)) =
  bool_decide (is_Some (watchId (appState (exec (run h) w)))).
Proof.
  intros Hinv. destruct h as [env position | id | | |].
  - unfold exec, run. rewrite handlePositionUpdate_run. cbn [fst snd].
    rewrite checkNotifications_at_run.
    destruct (Spec.evaluate_strict (distance_of position w)
                (notified (appState (positioned position w)))) as [[] |];
      try exact Hinv.
    rewrite handleArrival_run. reflexivity.
  - unfold exec, run, bind, get, when.
    destruct (isTracking (appState w)) eqn:Et; [| rewrite <- Et in Hinv; exact Hinv].
    rewrite startPositionTracking_run. reflexivity.
  - unfold exec, run, bind. rewrite stopTracking_run.
    destruct w as [[f um rc dl dg n wid tr st] wl th].
    unfold NotificationSystem.clear, NotificationSystem.releaseWakeLock,
      bind, get, emit, when, ret. reflexivity.
  - unfold exec, run. rewrite stopTracking_run. reflexivity.
  - destruct w as [[f um rc dl dg n wid tr st] wl th].
    unfold exec, run, AppState_reset, bind, get, modifyApp, modify, emit, ret.
    destruct wid; reflexivity.
Qed.

(** X13. In every state the page can reach, the tracking flag is set exactly
    when a watch is held, and the watch held in [watchId] is the only
    subscription that was made and not cleared: there is never more than
    one.  Coming back to a visible page while tracking clears the old watch
    before it subscribes the new one, and does nothing when tracking is
    off. *)
Theorem one_watch_while_tracking (w : World) (tr : list event)
    (Hr : reachable w tr) :
  isTracking (appState w) = bool_decide (is_Some (watchId (appState w))) /\
  active_watches tr = option_list (watchId (appState w)) /\
  (length (active_watches tr) <= 1)%nat /\
  (forall id,
     trace (run (BecameVisible id)) w =
     if isTracking (appState w)
     then option_list (ClearWatch <$> watchId (appState w)) ++
          [WatchPosition id; BackupInterval]
     else []).
Proof.
  assert (isTracking (appState w) = bool_decide (is_Some (watchId (appState w))))
    as Hflag.
  { induction Hr as [stored | stored env lat lon id | w tr _ IH | w tr h _ IH].
    - reflexivity.
    - unfold exec. rewrite trackDestination_run. reflexivity.
    - exact IH.
    - apply run_tracking_watch. exact IH. }
  destruct (reachable_effects w tr Hr) as [Hw _].
  split; [exact Hflag |]. split; [exact Hw |]. split.
  - rewrite Hw. destruct (watchId (appState w)); cbn; lia.
  - intros id. unfold trace, run, bind, get, when.
    destruct (isTracking (appState w)); [| reflexivity].
    rewrite startPositionTracking_run. cbn [fst snd].
    destruct (watchId (appState w)); reflexivity.
Qed.

Lemma one_watch_while_tracking_witness :
  let start := TrackPageController.trackDestination sample_env
                 (Fin (69271 / 10000)) (Fin (798612 / 10000)) 1 in
  reachable (exec start (page_loaded None)) (trace start (page_loaded None)) /\
  active_watches (trace start (page_loaded None)) =
  option_list (watchId (appState (exec start (page_loaded None)))).
Proof.
  cbv zeta.
  assert (reachable
            (exec (TrackPageController.trackDestination sample_env
                     (Fin (69271 / 10000)) (Fin (798612 / 10000)) 1)
                  (page_loaded None))
            (trace (TrackPageController.trackDestination sample_env
                      (Fin (69271 / 10000)) (Fin (798612 / 10000)) 1)
                   (page_loaded None))) as Hr by apply reach_tracking.
  split; [exact Hr |].
  exact (proj1 (proj2 (one_watch_while_tracking _ _ Hr))).
Defined.

(** X14. A geolocation error shows one error banner for eight seconds, with
    the text of its code (any code other than 1, 2 and 3 gets the unknown
    error text), uses no other channel and leaves the whole state as it
    was: tracking is not torn down, and the handler that runs next does what
    it would have done without the error. *)
Theorem geolocation_error_keeps_session (code : Z) (w : World) (h : handler) :
  ErrorHandler.handleGeolocationError code w =
    (tt, w, [InAppNotification (ErrorHandler.geolocationMessage code) error 8000]) /\
  exec (ErrorHandler.handleGeolocationError code ;; run h) w = exec (run h) w /\
  trace (ErrorHandler.handleGeolocationError code ;; run h) w =
    InAppNotification (ErrorHandler.geolocationMessage code) error 8000 ::
    trace (run h) w /\
  (code <> 1%Z -> code <> 2%Z -> code <> 3%Z ->
   ErrorHandler.geolocationMessage code =
   "Unknown location error. Please try refreshing the page").
Proof.
  split; [reflexivity |].
  unfold exec, trace, bind.
  change (ErrorHandler.handleGeolocationError code w)
    with (tt, w, [InAppNotification (ErrorHandler.geolocationMessage code) error 8000]).
  cbv beta iota zeta.
  destruct (run h w) as [[[] w'] t]. cbn [fst snd].
  split; [reflexivity |]. split; [reflexivity |].
  intros H1 H2 H3. unfold ErrorHandler.geolocationMessage,
    ErrorHandler.PERMISSION_DENIED, ErrorHandler.POSITION_UNAVAILABLE,
    ErrorHandler.TIMEOUT.
  destruct (Z.eqb_spec code 1); [contradiction |].
  destruct (Z.eqb_spec code 2); [contradiction |].
  destruct (Z.eqb_spec code 3); [contradiction | reflexivity].
Qed.

Lemma run_all_stores_le (hs : list handler) (w : World) :
  (length (stores (trace (run_all hs) w)) <= arrivals (trace (run_all hs) w))%nat.
Proof.
  revert w. induction hs as [| h hs IH]; intros w; [reflexivity |].
  destruct (run_all_cons h hs w) as [-> _].
  pose proof (run_stores_le h w) as Hh. specialize (IH (exec (run h) w)).
  unfold arrivals in *. rewrite stores_app, dispatches_app, List.filter_app, !length_app.
  lia.
Qed.

Lemma run_all_stores (hs : list handler) (w : World) :
  forallb storage_works hs = true ->
  length (stores (trace (run_all hs) w)) = arrivals (trace (run_all hs) w).
Proof.
  revert w. induction hs as [| h hs IH]; intros w Hok; [reflexivity |].
  cbn [forallb] in Hok. apply andb_true_iff in Hok as [Hh Hok].
  destruct (run_all_cons h hs w) as [-> _].
  pose proof (run_stores h w) as Hst. rewrite Hh in Hst.
  specialize (IH (exec (run h) w) Hok).
  unfold arrivals in *. rewrite stores_app, dispatches_app, List.filter_app, !length_app.
  lia.
Qed.

Lemma run_all_stores_failing (hs : list handler) (w : World) :
  forallb (fun h => negb (storage_works h)) hs = true ->
  stores (trace (run_all hs) w) = [].
Proof.
  revert w. induction hs as [| h hs IH]; intros w Hko; [reflexivity |].
  cbn [forallb] in Hko. apply andb_true_iff in Hko as [Hh Hko].
  destruct (run_all_cons h hs w) as [-> _].
  pose proof (run_stores h w) as Hst. apply negb_true_iff in Hh. rewrite Hh in Hst.
  apply length_zero_iff_nil in Hst.
  rewrite stores_app, Hst, (IH _ Hko). reflexivity.
Qed.

Lemma List_filter_none {A : Type} (f : A -> bool) (l : list A) :
  (forall y, In y l -> f y = false) -> List.filter f l = [].
Proof.
  induction l as [| x l IH]; intros H; cbn [List.filter]; [reflexivity |].
  rewrite (H x (or_introl eq_refl)). apply IH. intros y Hy. apply H. right. exact Hy.
Qed.

Lemma NoDup_arrivals (l : list Spec.ThresholdId) :
  NoDup l ->
  (length (List.filter (fun k => bool_decide (k = Spec.arrived)) l) <= 1)%nat.
Proof.
  induction 1 as [| x l Hx _ IH]; cbn [List.filter length]; [lia |].
  destruct (bool_decide_reflect (x = Spec.arrived)) as [-> | _]; [| exact IH].
  cbn [length].
  assert (List.filter (fun k => bool_decide (k = Spec.arrived)) l = []) as ->; [| cbn; lia].
  apply List_filter_none. intros y Hy.
  apply bool_decide_eq_false. intros ->. apply Hx, list_elem_of_In, Hy.
Qed.

(** X15. Over every sequence of handlers without a reset, from every state,
    [arrived] is dispatched at most once and the trip log is written at most
    once, and only by a dispatch of [arrived]: exactly once per dispatch
    when the storage works at every sample, and never when it fails at
    every sample; if [arrived] was already notified at the start, the log is
    not written at all. *)
Theorem one_trip_per_session (hs : list handler) (w : World)
    (Hs : Forall (fun h => h <> Reset) hs) :
  let tr := trace (run_all hs) w in
  (length (stores tr) <= arrivals tr)%nat /\
  (arrivals tr <= 1)%nat /\
  (length (stores tr) <= 1)%nat /\
  (forallb storage_works hs = true -> length (stores tr) = arrivals tr) /\
  (forallb (fun h => negb (storage_works h)) hs = true -> stores tr = []) /\
  (is_notified w "arrived" = true -> stores tr = []).
Proof.
  cbv zeta. destruct (run_all_session hs Hs w) as (_ & _ & Hnd & Hd).
  pose proof (run_all_stores_le hs w) as Hle.
  pose proof (NoDup_arrivals _ Hnd) as Hone. fold (arrivals (trace (run_all hs) w)) in Hone.
  split; [exact Hle |]. split; [exact Hone |]. split; [lia |].
  split; [apply run_all_stores |]. split; [apply run_all_stores_failing |].
  intros Hn. apply length_zero_iff_nil.
  assert (arrivals (trace (run_all hs) w) = 0%nat) as Hz; [| lia].
  unfold arrivals.
  assert (List.filter (fun k => bool_decide (k = Spec.arrived))
            (dispatches (trace (run_all hs) w)) = []) as ->; [| reflexivity].
  apply List_filter_none. intros t Ht. apply bool_decide_eq_false. intros ->.
  apply list_elem_of_In in Ht. destruct (Hd _ Ht) as [Hf _].
  change (Spec.key Spec.arrived) with "arrived" in Hf. congruence.
Qed.

(** On the page that tracks to the sample destination, the sample session
    arrives with its first sample: the log is written exactly once. *)
Lemma one_trip_per_session_witness :
  Forall (fun h => h <> Reset) sample_session /\
  dispatches (trace (run_all sample_session) tracking_started) =
    [Spec.arrived; Spec.close] /\
  length (stores (trace (run_all sample_session) tracking_started)) = 1%nat.
Proof.
  assert (Forall (fun h => h <> Reset) sample_session) as Hs
    by (repeat constructor; discriminate).
  split; [exact Hs |]. split; [exact sample_session_dispatches |].
  rewrite (proj1 (proj2 (proj2 (proj2
             (one_trip_per_session sample_session tracking_started Hs)))) eq_refl).
  unfold arrivals. rewrite sample_session_dispatches. reflexivity.
Defined.

End TrackingSession.

(** ** Samples that repeat a distance *)

Section RepeatedSamples.

Lemma find_head_filter {A : Type} (f : A -> bool) (l : list A) :
  List.find f l = head (List.filter f l).
Proof.
  induction l as [| x l IH]; cbn [List.find List.filter]; [reflexivity |].
  destruct (f x); [reflexivity | exact IH].
Qed.

Lemma filter_without_head {A : Type} `{EqDecision A} (P Q : A -> bool)
    (l : list A) (t : A) :
  NoDup l ->
  head (List.filter P l) = Some t ->
  (forall y, Q y = P y && negb (bool_decide (y = t))) ->
  List.filter Q l = tail (List.filter P l).
Proof.
  intros Hnd Hhead HQ. induction Hnd as [| x l Hx Hnd IH]; [discriminate |].
  cbn [List.filter] in *. rewrite (HQ x). destruct (P x) eqn:HP.
  - cbn [head] in Hhead. injection Hhead as <-.
    rewrite bool_decide_eq_true_2 by reflexivity. cbn [andb negb tail].
    apply List.filter_ext_in. intros y Hy. rewrite (HQ y).
    rewrite bool_decide_eq_false_2; [apply andb_true_r |].
    intros ->. apply Hx, list_elem_of_In, Hy.
  - cbn [andb]. apply IH. exact Hhead.
Qed.

Lemma order_NoDup : NoDup Spec.order.
Proof. apply (bool_decide_unpack _). reflexivity. Qed.

Lemma unseen_insert (seen : gmap string bool) (t y : Spec.ThresholdId) :
  Spec.unseen (<[Spec.key t := true]> seen) y =
  Spec.unseen seen y && negb (bool_decide (y = t)).
Proof.
  unfold Spec.unseen. destruct (bool_decide_reflect (y = t)) as [-> | Hne].
  - rewrite lookup_insert_eq, andb_false_r. reflexivity.
  - rewrite lookup_insert_ne, andb_true_r; [reflexivity |].
    intros Hk. apply key_inj in Hk. congruence.
Qed.

Lemma evaluate_strict_head (d : jsnum) (seen : gmap string bool) :
  Spec.evaluate_strict d seen = head (eligible d seen).
Proof. apply find_head_filter. Qed.

Lemma eligible_next (d : jsnum) (seen : gmap string bool) :
  eligible d (seen_next d seen) = tail (eligible d seen).
Proof.
  unfold seen_next. rewrite evaluate_strict_head.
  destruct (head (eligible d seen)) as [t |] eqn:Hh.
  - apply (filter_without_head _ _ _ t order_NoDup Hh).
    intros y. rewrite unseen_insert, andb_assoc. reflexivity.
  - destruct (eligible d seen); [reflexivity | discriminate].
Qed.

Lemma eligible_after (d : jsnum) (seen : gmap string bool) (n : nat) :
  eligible d (seen_after d seen n) = drop n (eligible d seen).
Proof.
  revert seen. induction n as [| n IH]; intros seen; [reflexivity |].
  cbn [seen_after]. rewrite IH, eligible_next.
  destruct (eligible d seen); [cbn [tail]; rewrite !drop_nil |]; reflexivity.
Qed.

Lemma eligible_length (d : jsnum) (seen : gmap string bool) :
  (length (eligible d seen) <= 4)%nat.
Proof.
  unfold eligible. etransitivity; [apply List.filter_length_le | reflexivity].
Qed.

Lemma samples_at_run (env : Env) (d : jsnum) (n : nat) (w : World) :
  dispatches (trace (samples_at env d n) w) = take n (eligible d (notified (appState w))) /\
  notified (appState (exec (samples_at env d n) w)) =
    seen_after d (notified (appState w)) n.
Proof.
  revert w. induction n as [| n IH]; intros w.
  - split; [rewrite take_0 |]; reflexivity.
  - destruct (checkNotifications_at_trace env d w) as (Hd & _ & Hn).
    destruct (IH (exec (TrackingService.checkNotifications_at env d) w)) as [IHd IHn].
    assert (trace (samples_at env d (S n)) w =
            trace (TrackingService.checkNotifications_at env d) w ++
            trace (samples_at env d n)
                  (exec (TrackingService.checkNotifications_at env d) w) /\
            exec (samples_at env d (S n)) w =
            exec (samples_at env d n)
                 (exec (TrackingService.checkNotifications_at env d) w)) as [-> ->].
    { unfold trace, exec. cbn [samples_at]. unfold bind.
      destruct (TrackingService.checkNotifications_at env d w) as [[[] w1] t1].
      cbn [fst snd]. destruct (samples_at env d n w1) as [[[] w2] t2].
      split; reflexivity. }
    fold (seen_next d (notified (appState w))) in Hn.
    rewrite dispatches_app, Hd, IHd, IHn, Hn, eligible_next, evaluate_strict_head.
    split; [| reflexivity].
    destruct (eligible d (notified (appState w)));
      [cbn [head tail option_list app]; rewrite !take_nil |]; reflexivity.
Qed.

(** X16. Evaluating the same distance again and again dispatches the
    thresholds that the distance makes eligible (boundary above the distance,
    not yet notified) one per evaluation, strictest first: [n] evaluations
    dispatch the first [n] of them.  From the fourth evaluation on all of
    them were dispatched and the next evaluation decides nothing.  So a
    first sample inside the arrived radius is followed, if samples keep
    coming, by the alerts of close, near and approaching. *)
Theorem repeated_samples_cascade (env : Env) (d : jsnum) (n : nat) (w : World) :
  let seen := notified (appState w) in
  let tr := trace (samples_at env d n) w in
  let w' := exec (samples_at env d n) w in
  dispatches tr = take n (eligible d seen) /\
  eligible d seen `sublist_of` Spec.order /\
  eligible d (notified (appState w')) = drop n (eligible d seen) /\
  ((4 <= n)%nat ->
   dispatches tr = eligible d seen /\
   Spec.evaluate_strict d (notified (appState w')) = None /\
   TrackingService.checkNotifications_at env d w' = (tt, w', [])) /\
  (lt d CONFIG.distances.arrived = true ->
   dispatches (trace (samples_at env d 4) (page_loaded None)) =
   [Spec.arrived; Spec.close; Spec.near; Spec.approaching]).
Proof.
  cbv zeta. destruct (samples_at_run env d n w) as [Hd Hn].
  pose proof (eligible_length d (notified (appState w))) as Hlen.
  split; [exact Hd |]. split; [apply List_filter_sublist |].
  split; [rewrite Hn; apply eligible_after |]. split.
  - intros H4.
    assert (Spec.evaluate_strict d
              (notified (appState (exec (samples_at env d n) w))) = None) as He.
    { rewrite evaluate_strict_head, Hn, eligible_after, drop_ge by lia. reflexivity. }
    split; [rewrite Hd; apply take_ge; lia |]. split; [exact He |].
    rewrite checkNotifications_at_run, He. reflexivity.
  - intros Ha. destruct (samples_at_run env d 4 (page_loaded None)) as [-> _].
    change (notified (appState (page_loaded None))) with (∅ : gmap string bool).
    unfold eligible, Spec.order. cbn [List.filter].
    rewrite !unseen_empty, !andb_true_r.
    change (Spec.boundary Spec.arrived) with CONFIG.distances.arrived.
    rewrite Ha.
    assert (forall b, lt d CONFIG.distances.arrived = true ->
              lt CONFIG.distances.arrived b = true -> lt d b = true) as Htrans.
    { intros b. unfold lt, CONFIG.distances.arrived. cbn [ToNumber].
      destruct d as [| r]; [discriminate |]. destruct (ToNumber b) as [| rb];
        [discriminate |].
      destruct (Rlt_dec r (3 / 10)), (Rlt_dec (3 / 10) rb), (Rlt_dec r rb);
        try reflexivity; try discriminate. lra. }
    rewrite (Htrans (Spec.boundary Spec.close) Ha) by (apply lt_Fin_true; lra).
    rewrite (Htrans (Spec.boundary Spec.near) Ha) by (apply lt_Fin_true; lra).
    rewrite (Htrans (Spec.boundary Spec.approaching) Ha) by (apply lt_Fin_true; lra).
    reflexivity.
Qed.

End RepeatedSamples.

(** ** The polls of the legacy page *)

Section LegacySession.




End LegacySession.

(** ** The duration of a trip *)

Section TripDuration.

(** X18. The duration [handleArrival] reports is the time since tracking
    started rounded to the nearest minute, a half minute going up, and is 0
    when no start time was recorded; it is not negative unless the clock
    went back.  The arrival banner and the saved trip record carry this same
    duration; when the storage fails no record is saved and the first record
    of the log is the one that was there. *)
Theorem tripDuration_nearest_minute (env : Env) (d : jsnum) (w : World) :
  let m := tripDuration env w in
  (trackingStartTime (appState w) = None -> m = 0%Z) /\
  (forall t0, trackingStartTime (appState w) = Some t0 ->
     (60000 * m - 30000 <= now env - t0 < 60000 * m + 30000)%Z /\
     ((t0 <= now env)%Z -> (0 <= m)%Z)) /\
  head (trace (TrackingService.handleArrival env d) w) =
    Some (InAppNotification (TrackingService.arrivedMessage m) success 10000) /\
  head (default [] (tripHistory (exec (TrackingService.handleArrival env d) w))) =
    (if storageOk env
     then Some (mkTrip (freshId env) (destination env) (parseFloat_toFixed2 d) m
                       (now env))
     else head (default [] (tripHistory w))).
Proof.
  cbv zeta. split; [| split].
  - unfold tripDuration. intros ->. reflexivity.
  - intros t0 Ht. unfold tripDuration. rewrite Ht. unfold round_div.
    change (2 * 60000)%Z with 120000%Z.
    pose proof (Z.div_mod (2 * (now env - t0) + 60000) 120000 ltac:(lia)) as Hdm.
    pose proof (Z.mod_pos_bound (2 * (now env - t0) + 60000) 120000 ltac:(lia)) as Hb.
    split; [| intros Hle]; lia.
  - unfold trace, exec. rewrite handleArrival_run. split; [reflexivity |].
    unfold saved. destruct (storageOk env); reflexivity.
Qed.

End TripDuration.

(** ** [SlideshowManager] *)

Section Slideshow.

Import SlideshowManager.

Lemma nextSlide_eq (s : Slideshow) :
  nextSlide s =
  mkSlideshow ((currentSlide s + 1) mod length (slides s))
    (imap (fun i _ => Nat.eqb i ((currentSlide s + 1) mod length (slides s)))
          (slides s)).
Proof. reflexivity. Qed.

Lemma slideshow_after_spec (page : list bool) (k : nat) :
  page <> [] ->
  currentSlide (slideshow_after page k) = (k mod length page)%nat /\
  length (slides (slideshow_after page k)) = length page /\
  forall i, slides (slideshow_after page k) !! i =
            (fun _ => Nat.eqb i (k mod length page)) <$> page !! i.
Proof.
  intros Hne.
  assert (length page <> 0%nat) as Hlen by (destruct page; [contradiction | discriminate]).
  unfold slideshow_after, init.
  destruct (Nat.eqb_spec (length page) 0) as [H0 | _]; [contradiction |]. cbn [fst].
  induction k as [| k (IHc & IHl & IHs)].
  - change (Nat.iter 0 nextSlide ?x) with x.
    cbn [showSlide currentSlide slides]. rewrite Nat.Div0.mod_0_l.
    split; [reflexivity |]. split; [apply length_imap |].
    intros i. apply list_lookup_imap.
  - rewrite Nat.iter_succ, nextSlide_eq. cbn [currentSlide slides].
    rewrite IHc, IHl.
    assert (((k mod length page + 1) mod length page)%nat = (S k mod length page)%nat)
      as -> by (rewrite Nat.Div0.add_mod_idemp_l; f_equal; lia).
    split; [reflexivity |]. split; [rewrite length_imap; exact IHl |].
    intros i. rewrite list_lookup_imap, IHs, <- option_fmap_compose. reflexivity.
Qed.

(** X19. On a page with slides the slideshow starts its timer and shows
    slide 0; after [k] ticks the current slide is [k mod n] for [n] slides,
    always a valid index, and exactly the current slide is active; after [n]
    ticks it is back where it started.  On a page without slides the timer
    is not started. *)
Theorem slideshow_cycles (page : list bool) (k : nat) (Hne : page <> []) :
  let s := slideshow_after page k in
  snd (init page) = true /\
  currentSlide s = (k mod length page)%nat /\
  (currentSlide s < length (slides s))%nat /\
  (forall i, (i < length page)%nat ->
     slides s !! i = Some (Nat.eqb i (currentSlide s))) /\
  slideshow_after page (k + length page) = slideshow_after page k /\
  init [] = (mkSlideshow 0 [], false).
Proof.
  cbv zeta.
  assert (length page <> 0%nat) as Hlen by (destruct page; [contradiction | discriminate]).
  destruct (slideshow_after_spec page k Hne) as (Hc & Hl & Hs).
  split.
  { unfold init. destruct (Nat.eqb_spec (length page) 0); [contradiction | reflexivity]. }
  split; [exact Hc |]. split.
  { rewrite Hc, Hl. apply Nat.mod_upper_bound. exact Hlen. }
  split.
  { intros i Hi. rewrite Hs, Hc. destruct (lookup_lt_is_Some_2 page i Hi) as [b ->].
    reflexivity. }
  split; [| reflexivity].
  destruct (slideshow_after_spec page (k + length page) Hne) as (Hc' & Hl' & Hs').
  assert (((k + length page) mod length page)%nat = (k mod length page)%nat) as Hmod.
  { replace (k + length page)%nat with (k + 1 * length page)%nat by lia.
    apply Nat.Div0.mod_add. }
  destruct (slideshow_after page (k + length page)) as [c' sl'].
  destruct (slideshow_after page k) as [c sl]. cbn [currentSlide slides] in *.
  f_equal; [congruence |].
  apply list_eq. intros i. rewrite Hs, Hs', Hmod. reflexivity.
Qed.

Lemma slideshow_cycles_witness :
  [false; false; true] <> [] /\
  currentSlide (slideshow_after [false; false; true] 5) = 2%nat.
Proof.
  assert ([false; false; true] <> @nil bool) as Hne by discriminate.
  split; [exact Hne |].
  exact (proj1 (proj2 (slideshow_cycles [false; false; true] 5 Hne))).
Defined.

End Slideshow.

(** ** What the handlers leave alone *)

Section SessionFrame.

(** X20. No handler of the page changes the destination, whatever the
    sequence (a reset included), so every distance of a session is measured
    to the destination it started with.  A position sample leaves the marker
    on the sample, the route between the sample and the destination, and the
    map marked as fitted; once the map is fitted no handler unmarks it, so
    the bounds are fitted at most once. *)
Theorem handlers_keep_destination (hs : list handler) (w : World) :
  let w' := exec (run_all hs) w in
  destLat (appState w') = destLat (appState w) /\
  destLng (appState w') = destLng (appState w) /\
  (map_fitted (appState w) = true -> map_fitted (appState w') = true) /\
  (forall env position rest,
     let w1 := exec (run (PositionUpdate env position)) w in
     map_fitted (appState w1) = true /\
     userMarker (appState w1) = Some (latitude position, longitude position) /\
     routeControl (appState w1) =
       Some ((latitude position, longitude position),
             (destLat (appState w), destLng (appState w))) /\
     map_fitted (appState (exec (run_all (PositionUpdate env position :: rest)) w)) = true).
Proof.
  cbv zeta.
  assert (forall hs0 w0,
            destLat (appState (exec (run_all hs0) w0)) = destLat (appState w0) /\
            destLng (appState (exec (run_all hs0) w0)) = destLng (appState w0) /\
            (map_fitted (appState w0) = true ->
             map_fitted (appState (exec (run_all hs0) w0)) = true)) as Hall.
  { induction hs0 as [| h hs0 IH]; intros w0; [repeat split; intros H; exact H |].
    destruct (run_all_cons h hs0 w0) as [_ ->].
    destruct (run_frame h w0) as (Hlat & Hlng & Hfit & _).
    destruct (IH (exec (run h) w0)) as (IHlat & IHlng & IHfit).
    split; [rewrite IHlat; exact Hlat |]. split; [rewrite IHlng; exact Hlng |].
    intros H. apply IHfit, Hfit, H. }
  destruct (Hall hs w) as (Hlat & Hlng & Hfit).
  split; [exact Hlat |]. split; [exact Hlng |]. split; [exact Hfit |].
  intros env position rest.
  destruct (run_frame (PositionUpdate env position) w) as (_ & _ & _ & Hp).
  destruct (Hp env position eq_refl) as (Hf & Hm & Hrc).
  split; [exact Hf |]. split; [exact Hm |]. split; [exact Hrc |].
  destruct (run_all_cons (PositionUpdate env position) rest w) as [_ ->].
  apply Hall, Hf.
Qed.

End SessionFrame.
